(** * exporter/util.py: dictionary helpers, memoization and the retrying
      shell executor

    A shallow embedding of [src/exporter/util.py].  Python dictionaries are
    finite maps ([gmap]), Python integers are [Z], exceptions are values of
    an error type, and the code that touches the outside world (running a
    command, sleeping, logging, file objects) threads an explicit [world]. *)

From stdpp Require Import base gmap strings list fin_maps.
From Stdlib Require Import ZArith Lia.
From Equations Require Import Equations.

Open Scope Z_scope.

(** ** Python values

    The values stored in the dictionaries handled by [merge] and
    [filter_keys]: [None], integers, strings and (nested) dictionaries
    with string keys. *)

#[warnings="-register-all"] Inductive pyval : Type :=
| PyNone
| PyInt (n : Z)
| PyStr (s : string)
| PyDict (d : gmap string pyval).

(** [value is None] *)
Definition is_None (v : pyval) : bool :=
  match v with PyNone => true | _ => false end.

Module Dict.
Section dict.
Context {K : Type} `{Countable K}.

(** [d.get(key)]: the value at [key], [None] when the key is absent. *)
Definition get (d : gmap K pyval) (key : K) : pyval :=
  default PyNone (d !! key).

(** One turn of the loop body of [merge], lines 39-40. *)
Definition merge_step (dict_a dict_b : gmap K pyval)
    (result : gmap K pyval) (key : K) : gmap K pyval :=
  let value := get dict_a key in
  <[key := if is_None value then get dict_b key else value]> result.

(** [merge(dict_a, dict_b)], lines 29-42: the loop runs over the
    elements of [set(dict_a) | set(dict_b)]. *)
Definition merge (dict_a dict_b : gmap K pyval) : gmap K pyval :=
  foldl (merge_step dict_a dict_b) ∅
        (elements (dom dict_a ∪ dom dict_b)).

(** [{k: {} for k in keys}], line 52. *)
Definition placeholders (keys : list K) : gmap K pyval :=
  foldl (fun result k => <[k := PyDict ∅]> result) ∅ keys.

(** [k in keys] for a list, a tuple or a set of keys. *)
Definition key_in (k : K) (keys : list K) : bool :=
  bool_decide (k ∈ keys).

(** [result.update(other)]: the entries of [other] win. *)
Definition update (result other : gmap K pyval) : gmap K pyval :=
  other ∪ result.

(** [filter_keys(mapping, keys)], lines 45-59.  [keys] is [None] or a
    collection, given by the list of its elements in iteration order;
    [if keys:] is false for [None] and for an empty collection. *)
Definition filter_keys (mapping : gmap K pyval)
    (keys : option (list K)) : gmap K pyval :=
  match keys with
  | Some (k0 :: ks) =>
      let keys := k0 :: ks in
      let result := placeholders keys in
      update result
        (filter (fun kv => key_in kv.1 keys = true) mapping)
  | Some [] | None => mapping
  end.
End dict.
End Dict.

(** ** Memoization, lines 64-74

    [memoize(obj)] creates an empty [cache] and returns [memoizer], which
    closes over it.  The arguments of one call are the pair of the
    positional tuple [args] and the keyword dictionary [kwargs]; Python's
    [str] of each is a parameter.  The state threaded through the calls
    holds the cache and, to count them, the invocations of [obj]. *)

Module Memo.
Section memoize.
Context {Args Kwargs R : Type}.
Variable str_args : Args → string.
Variable str_kwargs : Kwargs → string.
Variable obj : Args → Kwargs → R.

Record state := {
  cache : gmap string R;
  invocations : list (Args * Kwargs)
}.

(** [cache = obj.cache = {}], line 65. *)
Definition memoize : state :=
  {| cache := ∅; invocations := [] |}.

(** The wrapper [memoizer], lines 68-72. *)
Definition memoizer (args : Args) (kwargs : Kwargs) (st : state)
    : R * state :=
  let key := (str_args args +:+ str_kwargs kwargs)%string in
  match cache st !! key with
  | None =>
      let r := obj args kwargs in
      (r, {| cache := <[key := r]> (cache st);
             invocations := invocations st ++ [(args, kwargs)] |})
  | Some r => (r, st)
  end.
End memoize.

Arguments state : clear implicits.
Arguments cache {Args Kwargs R} _.
Arguments invocations {Args Kwargs R} _.
Arguments memoize {Args Kwargs R}.

(** A user-defined class whose [__repr__] returns [repr_text]; [payload]
    is the rest of the object's state. *)
Record instance := { repr_text : string; payload : Z }.

(** [str] of a tuple of such objects: the [repr] of each element, with
    Python's trailing comma for a one-element tuple. *)
Definition str_tuple (args : list instance) : string :=
  match args with
  | [] => "()"
  | [x] => "(" +:+ repr_text x +:+ ",)"
  | x :: xs =>
      "(" +:+ foldl (fun s y => s +:+ ", " +:+ repr_text y) (repr_text x) xs
          +:+ ")"
  end%string.

(** [str] of the empty keyword dictionary. *)
Definition str_no_kwargs (_ : unit) : string := "{}"%string.
End Memo.

(** ** The retrying shell executor, lines 152-202 *)

Module Shell.

(** *** File objects

    The sinks handed to [execute_shell] are Python file objects.  They
    live in a store and are referred to by handle, so that the same
    object is seen by every attempt and by the caller, and two keyword
    arguments may name the same object.  A handle that the store does not
    map is an object without the file protocol.  Content is kept by line;
    [offset] is the current position, in lines. *)

Definition handle := nat.

Record pyfile := {
  closed : bool;
  readable : bool;
  content : list string;
  offset : nat
}.

(** [f.close()] *)
Definition close_file (f : pyfile) : pyfile :=
  {| closed := true; readable := readable f;
     content := content f; offset := offset f |}.

(** What a child process holding the descriptor does to the file when it
    writes [ls] at the current position. *)
Definition write_file (ls : list string) (f : pyfile) : pyfile :=
  {| closed := closed f; readable := readable f;
     content := take (offset f) (content f) ++ ls
                ++ drop (offset f + length ls)%nat (content f);
     offset := (offset f + length ls)%nat |}.

(** The state of the file after [f.readlines()]. *)
Definition read_to_end (f : pyfile) : pyfile :=
  {| closed := closed f; readable := readable f;
     content := content f;
     offset := Nat.max (offset f) (length (content f)) |}.

(** *** Exceptions *)

Inductive exn : Type :=
| CalledProcessError (returncode : Z)  (* subprocess: non-zero exit status *)
| KeyError (key : string)              (* missing dictionary key *)
| ValueError                           (* I/O operation on closed file *)
| IOError                              (* File not open for reading *)
| AttributeError.                      (* object without the file protocol *)

Inductive result (A : Type) : Type :=
| Ok (a : A)
| Raise (e : exn).
Arguments Ok {A} a.
Arguments Raise {A} e.

(** *** What the outside sees: executions, log records and sleeps *)

Inductive log_record : Type :=
| Error_on_attempt (attempt max_tries : Z)   (* line 161, log.exception *)
| Info (msg : string)                        (* log.info of a text *)
| Info_object (h : handle)                   (* line 164 *)
| Info_type (h : handle)                     (* line 165 *)
| Waiting (exponential_delay attempt : Z)    (* line 180 *)
| Retrying (attempt : Z).                    (* line 183 *)

Inductive event : Type :=
| Exec (returncode : Z)
| Log (r : log_record)
| Sleep (seconds : Z).

(** One run of a child process: its exit status and what it writes. *)
Record process := {
  exit_status : Z;
  out : list string;
  err : list string
}.

(** The command, as the shell runs it: what its [i]-th execution does,
    counting from 0. *)
Definition command := nat → process.

Record world := {
  files : gmap handle pyfile;
  executions : nat;
  trace : list event
}.

Definition set_files (fs : gmap handle pyfile) (w : world) : world :=
  {| files := fs; executions := executions w; trace := trace w |}.

Definition emit (e : event) (w : world) : world :=
  {| files := files w; executions := executions w;
     trace := trace w ++ [e] |}.

(** *** Computations: state passing with exceptions *)

Definition M (A : Type) : Type := world → world * result A.

Definition ret {A} (a : A) : M A := fun w => (w, Ok a).

Definition raise {A} (e : exn) : M A := fun w => (w, Raise e).

Definition bind {A B} (m : M A) (k : A → M B) : M B := fun w =>
  match m w with
  | (w1, Ok a) => k a w1
  | (w1, Raise e) => (w1, Raise e)
  end.

#[export] Instance M_ret : MRet M := @ret.
#[export] Instance M_bind : MBind M := fun A B k m => bind m k.

(** [for x in xs: body(x)] *)
Fixpoint for_each {A} (xs : list A) (body : A → M unit) : M unit :=
  match xs with
  | [] => ret tt
  | x :: xs' => body x ;; for_each xs' body
  end.

Definition log (r : log_record) : M unit := fun w => (emit (Log r) w, Ok tt).

(** [time.sleep(seconds)] *)
Definition sleep (seconds : Z) : M unit :=
  fun w => (emit (Sleep seconds) w, Ok tt).

(** [d[key]] on a dictionary of keyword arguments. *)
Definition subscript (d : gmap string handle) (key : string) : M handle :=
  match d !! key with
  | Some h => ret h
  | None => raise (KeyError key)
  end.

(** [f.fileno()], which [subprocess] calls on a sink before it forks. *)
Definition fileno (h : handle) : M unit := fun w =>
  match files w !! h with
  | None => (w, Raise AttributeError)
  | Some f => if closed f then (w, Raise ValueError) else (w, Ok tt)
  end.

(** [f.readlines()]: the lines from the current position to the end. *)
Definition readlines (h : handle) : M (list string) := fun w =>
  match files w !! h with
  | None => (w, Raise AttributeError)
  | Some f =>
      if closed f then (w, Raise ValueError)
      else if negb (readable f) then (w, Raise IOError)
      else (set_files (<[h := read_to_end f]> (files w)) w,
            Ok (drop (offset f) (content f)))
  end.

(** [with f as fi: body]: entering a closed file raises; leaving the
    block closes the file, whether the body raised or not. *)
Definition with_file {A} (h : handle) (body : handle → M A) : M A := fun w =>
  match files w !! h with
  | None => (w, Raise AttributeError)
  | Some f =>
      if closed f then (w, Raise ValueError)
      else
        let '(w1, r) := body h w in
        (set_files (alter close_file h (files w1)) w1, r)
  end.

(** The child process writes its output into the sinks it was given. *)
Definition child_writes (sink : option handle) (ls : list string)
    (w : world) : world :=
  match sink with
  | Some h => set_files (alter (write_file ls) h (files w)) w
  | None => w
  end.

(** [subprocess.check_call(cmd, shell=True, **additional_args)]: the
    handles are resolved first, then the command runs to completion; a
    non-zero exit status raises [CalledProcessError]. *)
Definition run (cmd : command) (additional_args : gmap string handle)
    : M Z := fun w =>
  let p := cmd (executions w) in
  let w1 := child_writes (additional_args !! "stdout") (out p) w in
  let w2 := child_writes (additional_args !! "stderr") (err p) w1 in
  ({| files := files w2; executions := S (executions w);
      trace := trace w ++ [Exec (exit_status p)] |},
   Ok (exit_status p)).

Definition check_call (cmd : command) (additional_args : gmap string handle)
    : M Z :=
  match additional_args !! "stdout" with
  | Some h => fileno h | None => ret tt end ;;
  match additional_args !! "stderr" with
  | Some h => fileno h | None => ret tt end ;;
  rc ← run cmd additional_args ;
  if rc =? 0 then ret 0 else raise (CalledProcessError rc).

(** *** The retry, lines 152-186 *)

Definition BASE_RETRY_DELAY_IN_SECONDS : Z := 5.

(** Lines 161-173: the log records written on a failed attempt.  The
    subscript of lines 167 and 171 is read as the one of line 164. *)
Definition log_failure (attempt max_tries : Z)
    (additional_args : gmap string handle) : M unit :=
  log (Error_on_attempt attempt max_tries) ;;
  log (Info "DEBUG:::") ;;
  o ← subscript additional_args "stdout" ; log (Info_object o) ;;
  o ← subscript additional_args "stdout" ; log (Info_type o) ;;
  log (Info "stdout_file:::") ;;
  o ← subscript additional_args "stdout" ;
  with_file o (fun fi =>
    lines ← readlines fi ;
    for_each lines (fun line => log (Info line))) ;;
  log (Info "stderr_file:::") ;;
  e ← subscript additional_args "stderr" ;
  with_file e (fun fi =>
    lines ← readlines fi ;
    for_each lines (fun line => log (Info line))).

(** Lines 179-183, with [attempt] already incremented by line 178. *)
Definition back_off (attempt : Z) : M unit :=
  let exponential_delay := BASE_RETRY_DELAY_IN_SECONDS * (2 ^ attempt) in
  log (Waiting exponential_delay attempt) ;;
  sleep exponential_delay ;;
  log (Retrying attempt).

(** [_retry_execute_shell(cmd, attempt, max_tries, **additional_args)],
    lines 155-186.  The recursive call is made only while the incremented
    [attempt] is below [max_tries], so [max_tries - attempt] decreases. *)
Equations? _retry_execute_shell (cmd : command) (attempt max_tries : Z)
    (additional_args : gmap string handle) (w : world) : world * result Z
    by wf (Z.to_nat (max_tries - attempt)) lt :=
  _retry_execute_shell cmd attempt max_tries additional_args w
    with check_call cmd additional_args w := {
    | (w1, Ok return_val) := (w1, Ok return_val);
    | (w1, Raise (CalledProcessError rc))
        with log_failure attempt max_tries additional_args w1 := {
        | (w2, Raise e) := (w2, Raise e);
        | (w2, Ok _) with back_off (attempt + 1) w2 := {
            | (w3, Raise e) := (w3, Raise e);
            | (w3, Ok _) with decide (attempt + 1 >= max_tries) := {
                | left _ := (w3, Raise (CalledProcessError rc));
                | right _ :=
                    _retry_execute_shell cmd (attempt + 1) max_tries
                                         additional_args w3 } } };
    | (w1, Raise e) := (w1, Raise e) }.
Proof. lia. Qed.

(** The keyword arguments [execute_shell] looks at. *)
Record kwargs := {
  stdout_file : option handle;
  stderr_file : option handle;
  max_tries : option Z
}.

(** [execute_shell(cmd, **kwargs)], lines 189-202. *)
Definition execute_shell (cmd : command) (kw : kwargs) : M Z :=
  let additional_args : gmap string handle := ∅ in
  let additional_args :=
    match stdout_file kw with
    | Some f => <["stdout" := f]> additional_args
    | None => additional_args
    end in
  let additional_args :=
    match stderr_file kw with
    | Some f => <["stderr" := f]> additional_args
    | None => additional_args
    end in
  let attempt := 1 in
  let max_tries :=
    match max_tries kw with
    | Some n => n
    | None => 1
    end in
  _retry_execute_shell cmd attempt max_tries additional_args.

End Shell.

(** ** Concrete inputs used by the examples below *)

Module Inputs.
Import Shell.

(** A sink as [tempfile] hands it out: open, readable, empty. *)
Definition fresh_file : pyfile :=
  {| closed := false; readable := true; content := []; offset := 0 |}.

(** Two distinct open sinks, nothing run or logged so far. *)
Definition w0 : world :=
  {| files := {[ 0%nat := fresh_file; 1%nat := fresh_file ]};
     executions := 0; trace := [] |}.

(** A command that exits with status 1 on every execution. *)
Definition always_fails : command := fun _ =>
  {| exit_status := 1; out := ["out"%string]; err := ["err"%string] |}.

(** A command that exits with status 1 once and with 0 afterwards. *)
Definition fails_once : command := fun i =>
  {| exit_status := if (i =? 0)%nat then 1 else 0;
     out := ["out"%string]; err := [] |}.

(** A command that exits with status 0. *)
Definition succeeds : command := fun _ =>
  {| exit_status := 0; out := ["out"%string]; err := [] |}.

(** [stdout_file=f0, stderr_file=f1, max_tries=n] *)
Definition both_sinks (n : Z) : kwargs :=
  {| stdout_file := Some 0%nat; stderr_file := Some 1%nat;
     max_tries := Some n |}.

(** No keyword argument at all. *)
Definition no_kwargs : kwargs :=
  {| stdout_file := None; stderr_file := None; max_tries := None |}.

(** Two objects of one class that print alike and differ in state. *)
Definition course_1 : Memo.instance :=
  {| Memo.repr_text := "<Course>"; Memo.payload := 1 |}.
Definition course_2 : Memo.instance :=
  {| Memo.repr_text := "<Course>"; Memo.payload := 2 |}.

(** The memoized function of the examples: the sum of the payloads. *)
Definition total (args : list Memo.instance) (_ : unit) : Z :=
  foldr (fun x acc => Memo.payload x + acc) 0 args.
End Inputs.

(** ** Vocabulary of the statements *)

(** The value [merge] stores at a key, lines 39-40. *)
Definition merged {K : Type} `{Countable K}
    (a b : gmap K pyval) (k : K) : pyval :=
  if is_None (Dict.get a k) then Dict.get b k else Dict.get a k.

Module Obs.
Import Shell.

(** The events a call added to the trace, given the worlds before and
    after it. *)
Definition emitted (before after : world) : list event :=
  drop (length (trace before)) (trace after).

(** The durations of the sleeps among some events, in order. *)
Definition sleeps (evs : list event) : list Z :=
  omap (fun e => match e with Sleep s => Some s | _ => None end) evs.

(** The exit statuses of the executions among some events, in order. *)
Definition execs (evs : list event) : list Z :=
  omap (fun e => match e with Exec rc => Some rc | _ => None end) evs.

(** The file behind handle [h] exists and is closed. *)
Definition closed_in (w : world) (h : handle) : Prop :=
  ∃ f, files w !! h = Some f ∧ closed f = true.

(** The file behind handle [h] exists and is open. *)
Definition open_in (w : world) (h : handle) : Prop :=
  ∃ f, files w !! h = Some f ∧ closed f = false.

(** Every sink named in the keyword arguments is an open file. *)
Definition sinks_usable (kw : kwargs) (w : world) : Prop :=
  (∀ h, stdout_file kw = Some h → open_in w h) ∧
  (∀ h, stderr_file kw = Some h → open_in w h).

(** Log records other than the announcement of a retry. *)
Definition diagnostic (r : log_record) : Prop :=
  match r with
  | Retrying _ | Waiting _ _ => False
  | _ => True
  end.

(** [after] differs from [before] by diagnostics only: nothing was run,
    no sleep was made, no file object disappeared and no closed file was
    reopened. *)
Definition frame (before after : world) : Prop :=
  executions after = executions before ∧
  (∃ logs, trace after = trace before ++ map Log logs ∧
           Forall diagnostic logs) ∧
  (∀ h, is_Some (files before !! h) → is_Some (files after !! h)) ∧
  (∀ h, closed_in before h → closed_in after h).

(** A computation that only writes diagnostics and never raises
    [CalledProcessError] itself. *)
Definition quiet {A} (m : M A) : Prop :=
  ∀ w, frame w (m w).1 ∧ ∀ rc, (m w).2 ≠ Raise (CalledProcessError rc).

(** One attempt with its failure handling, the recursive call of line 186
    replaced by what it does after a handled failure: the sinks have been
    closed by lines 167 and 171, so [subprocess] raises before running
    anything. *)
Definition attempt_once (cmd : command) (attempt max_tries : Z)
    (additional_args : gmap string handle) : M Z := fun w =>
  match check_call cmd additional_args w with
  | (w1, Ok return_val) => (w1, Ok return_val)
  | (w1, Raise (CalledProcessError rc)) =>
      match (log_failure attempt max_tries additional_args ;;
             back_off (attempt + 1)) w1 with
      | (w3, Raise e) => (w3, Raise e)
      | (w3, Ok _) =>
          if decide (attempt + 1 >= max_tries)
          then (w3, Raise (CalledProcessError rc))
          else (w3, Raise ValueError)
      end
  | (w1, Raise e) => (w1, Raise e)
  end.

(** The dictionary of line 190 as lines 191-194 fill it. *)
Definition additional_args_of (kw : kwargs) : gmap string handle :=
  let additional_args : gmap string handle := ∅ in
  let additional_args :=
    match stdout_file kw with
    | Some f => <["stdout" := f]> additional_args
    | None => additional_args
    end in
  match stderr_file kw with
  | Some f => <["stderr" := f]> additional_args
  | None => additional_args
  end.

(** The claim that a malformed [max_tries] is rejected before the command
    runs, for one call. *)
Definition fails_fast (cmd : command) (kw : kwargs) (w : world) : Prop :=
  (∃ e, (execute_shell cmd kw w).2 = Raise e) ∧
  executions (execute_shell cmd kw w).1 = executions w.
End Obs.

(** ** Sequences of calls of a memoized function *)

Module MemoRun.
Import Memo.
Section run.
Context {Args Kwargs R : Type}.
Variable str_args : Args → string.
Variable str_kwargs : Kwargs → string.
Variable obj : Args → Kwargs → R.

(** The cache key of a call, line 69. *)
Definition key_of (c : Args * Kwargs) : string :=
  (str_args c.1 +:+ str_kwargs c.2)%string.

(** The wrapper called on each element of [calls] in turn; the results in
    order, and the final state. *)
Fixpoint call_all (calls : list (Args * Kwargs)) (st : state Args Kwargs R)
    : list R * state Args Kwargs R :=
  match calls with
  | [] => ([], st)
  | c :: rest =>
      let '(r, st1) := memoizer str_args str_kwargs obj c.1 c.2 st in
      let '(rs, st2) := call_all rest st1 in
      (r :: rs, st2)
  end.

(** The value a call [c] returns when it is made in state [st] after the
    calls [before]: the cached value if [st] has one for its key, else
    what the function gives for the first earlier call with that key. *)
Definition answer (st : state Args Kwargs R)
    (before : list (Args * Kwargs)) (c : Args * Kwargs) : R :=
  match cache st !! key_of c with
  | Some r => r
  | None =>
      match list_find (λ c', key_of c' = key_of c) before with
      | Some (_, c') => obj c'.1 c'.2
      | None => obj c.1 c.2
      end
  end.
End run.
End MemoRun.

(** ** More vocabulary for the executor *)

Module ObsMore.
Import Shell.

(** The world after the events [evs]. *)
Definition emits (evs : list event) (w : world) : world :=
  {| files := files w; executions := executions w;
     trace := trace w ++ evs |}.

(** The body of the [with] blocks of lines 167-169 and 171-173. *)
Definition dump (fi : handle) : M unit :=
  lines ← readlines fi ;
  for_each lines (fun line => log (Info line)).

(** The log records of lines 161-166, for the sink [o] given as
    [stdout]. *)
Definition failure_header (attempt max_tries : Z) (o : handle)
    : list event :=
  [Log (Error_on_attempt attempt max_tries); Log (Info "DEBUG:::");
   Log (Info_object o); Log (Info_type o); Log (Info "stdout_file:::")].

(** The file is positioned at its end, as it is after being written. *)
Definition at_end (f : pyfile) : Prop := offset f = length (content f).
End ObsMore.

(** ** Logging the captured streams on failure, lines 123-146 *)

Module Streams.
Import Shell.

(** The characters [str.strip()] removes: space (code 32), and tab, line
    feed, vertical tab, form feed and carriage return (codes 9 to 13). *)
Definition is_space (c : Ascii.ascii) : bool :=
  let n := Ascii.nat_of_ascii c in
  ((n =? 32) || ((9 <=? n) && (n <=? 13)))%nat.

Fixpoint lstrip (s : string) : string :=
  match s with
  | String c s' => if is_space c then lstrip s' else s
  | EmptyString => EmptyString
  end.

Fixpoint rstrip (s : string) : string :=
  match s with
  | String c s' =>
      match rstrip s' with
      | EmptyString => if is_space c then EmptyString else String c EmptyString
      | t => String c t
      end
  | EmptyString => EmptyString
  end.

(** [s.strip()] *)
Definition strip (s : string) : string := lstrip (rstrip s).

(** [f.flush()] *)
Definition flush (h : handle) : M unit := fun w =>
  match files w !! h with
  | None => (w, Raise AttributeError)
  | Some f => if closed f then (w, Raise ValueError) else (w, Ok tt)
  end.

(** [f.seek(pos)], with the position counted in lines. *)
Definition seek (h : handle) (pos : nat) : M unit := fun w =>
  match files w !! h with
  | None => (w, Raise AttributeError)
  | Some f =>
      if closed f then (w, Raise ValueError)
      else (set_files (<[h := {| closed := closed f; readable := readable f;
                                 content := content f; offset := pos |}]>
                         (files w)) w, Ok tt)
  end.

(** [log_file_contents(log_func, file_handle)], lines 142-146.  The loop
    over the file reads it from the current position to its end. *)
Definition log_file_contents (log_func : string → M unit)
    (file_handle : handle) : M unit :=
  flush file_handle ;;
  seek file_handle 0 ;;
  lines ← readlines file_handle ;
  for_each lines (fun line => log_func (strip line)).

Definition MEMORY_BUFFER_SIZE : Z := 10 * 1024 * 1024.

(** [tempfile.SpooledTemporaryFile(max_size=...)]: a new file object,
    open for reading and writing, empty.  Whether its content is kept in
    memory or on disk is not visible here. *)
Definition SpooledTemporaryFile (max_size : Z) : M handle := fun w =>
  let h := fresh (dom (files w)) in
  (set_files (<[h := {| closed := false; readable := true;
                        content := []; offset := 0 |}]> (files w)) w,
   Ok h).

(** [try: body / except Exception: handler], the handler being given the
    exception so that a bare [raise] can raise it again. *)
Definition try_except {A} (body : M A) (handler : exn → M A) : M A :=
  fun w =>
    match body w with
    | (w1, Raise e) => handler e w1
    | (w1, Ok a) => (w1, Ok a)
    end.

Section logging.
(** [log.warning], the method of the module's logger. *)
Variable warning : string → M unit.

(** [with logging_streams_on_failure(name) as (output_file, error_file):
    body], lines 126-139. *)
Definition logging_streams_on_failure {A} (name : string)
    (body : handle → handle → M A) : M A :=
  f ← SpooledTemporaryFile MEMORY_BUFFER_SIZE ;
  with_file f (fun error_file =>
    g ← SpooledTemporaryFile MEMORY_BUFFER_SIZE ;
    with_file g (fun output_file =>
      try_except (body output_file error_file)
        (fun exc =>
           warning ("Failed to execute " +:+ name) ;;
           warning "Standard Output" ;;
           log_file_contents warning output_file ;;
           warning "Standard Error" ;;
           log_file_contents warning error_file ;;
           raise exc))).
End logging.

(** The [except] block of lines 133-139. *)
Definition on_exception {A} (warning : string → M unit) (name : string)
    (output_file error_file : handle) (exc : exn) : M A :=
  warning ("Failed to execute " +:+ name) ;;
  warning "Standard Output" ;;
  log_file_contents warning output_file ;;
  warning "Standard Error" ;;
  log_file_contents warning error_file ;;
  raise exc.

(** A logger method that returns and leaves the file objects alone. *)
Definition harmless (log_func : string → M unit) : Prop :=
  ∀ msg w, ∃ w', log_func msg w = (w', Ok tt) ∧ files w' = files w.

(** The world in which the body of [logging_streams_on_failure] starts,
    with the handles of the two new files: output first, error second. *)
Definition with_streams (w : world) : handle * handle * world :=
  let '(w1, _) := SpooledTemporaryFile MEMORY_BUFFER_SIZE w in
  let e := fresh (dom (files w)) in
  let '(w2, _) := SpooledTemporaryFile MEMORY_BUFFER_SIZE w1 in
  let o := fresh (dom (files w1)) in
  (o, e, w2).
End Streams.

(** ** Temporary directories, lines 79-94 *)

Module TempDir.

(** The part of the operating system the helper deals with: the paths
    that exist, as [os.path.exists] tells, and the directories whose
    [clean_dir] has been registered with [atexit], in the order of
    registration. *)
Record os := {
  paths : gset string;
  at_exit : list string
}.

Inductive outcome (E A : Type) : Type :=
| Returned (a : A)
| Raised (e : E).
Arguments Returned {E A} a.
Arguments Raised {E A} e.

(** [p] begins with [prefix]. *)
Fixpoint starts_with (prefix p : string) : bool :=
  match prefix, p with
  | EmptyString, _ => true
  | String a prefix', String b p' =>
      if decide (a = b) then starts_with prefix' p' else false
  | String _ _, EmptyString => false
  end.

(** [p] is the directory [d] or lies below it. *)
Definition below (d p : string) : bool :=
  bool_decide (p = d) || starts_with (d +:+ "/") p.

Section make.
Context {E : Type}.

(** [tempfile.mkdtemp(suffix, prefix, directory)], given the paths that
    exist: the path of the directory it creates, or the exception it
    raises. *)
Variable mkdtemp : string → string → option string → gset string → E + string.

(** Whether [shutil.rmtree(d)] fails, given the paths that exist (on a
    symbolic link, on something that is not a directory, on an entry it
    is not permitted to remove): the exception it raises and the paths it
    had removed by then, or [None] when it succeeds. *)
Variable rmtree_error : string → gset string → option (E * gset string).

(** [shutil.rmtree(d)].  When it succeeds, [d] and all that lies below it
    are removed.  When it fails, it has removed some of what lies below
    [d] and raises; [d] itself, which it removes last, is still there. *)
Definition rmtree (d : string) (fs : gset string)
    : gset string * outcome E unit :=
  match rmtree_error d fs with
  | None => (filter (fun p => below d p = false) fs, Returned tt)
  | Some (e, removed) =>
      (filter (fun p => p = d ∨ below d p = false ∨ p ∉ removed) fs,
       Raised e)
  end.

(** [clean_dir()], lines 85-87, for the [temp_dir] it closes over. *)
Definition clean_dir (temp_dir : string) (s : os) : os * outcome E unit :=
  if decide (temp_dir ∈ paths s)
  then
    let '(fs, r) := rmtree temp_dir (paths s) in
    ({| paths := fs; at_exit := at_exit s |}, r)
  else (s, Returned tt).

(** What [atexit] does when the interpreter exits: the registered
    functions are called, the last registered first; one that raises is
    reported and the others are still called. *)
Definition run_exit_handlers (s : os) : os :=
  {| paths := paths (foldl (fun st d => (clean_dir d st).1) s
                           (reverse (at_exit s)));
     at_exit := [] |}.

(** [with make_temp_directory(suffix, prefix, directory) as temp_dir:
    body], lines 79-94.  An exception of the body is raised at the
    [yield] and leaves the generator, so line 94 is not reached; an
    exception of line 94 is raised by the block. *)
Definition make_temp_directory {A} (suffix prefix : string)
    (directory : option string) (body : string → os → os * outcome E A)
    : os → os * outcome E A := fun s =>
  match mkdtemp suffix prefix directory (paths s) with
  | inl e => (s, Raised e)
  | inr temp_dir =>
      let s1 := {| paths := {[temp_dir]} ∪ paths s;
                   at_exit := at_exit s ++ [temp_dir] |} in
      match body temp_dir s1 with
      | (s2, Returned a) =>
          match clean_dir temp_dir s2 with
          | (s3, Returned _) => (s3, Returned a)
          | (s3, Raised e) => (s3, Raised e)
          end
      | (s2, Raised e) => (s2, Raised e)
      end
  end.
End make.
End TempDir.

(** ** Concrete inputs for the temporary directories *)

Module TempInputs.
Import TempDir.

(** A [mkdtemp] that always picks the same random part. *)
Definition mkdtemp_abc (suffix prefix : string) (directory : option string)
    (_ : gset string) : string + string :=
  inr (default "/tmp" directory +:+ "/" +:+ prefix +:+ "abc123" +:+ suffix)%string.

(** An [rmtree] that meets nothing it cannot remove. *)
Definition rmtree_succeeds (_ : string) (_ : gset string)
    : option (string * gset string) := None.

(** An [rmtree] that is refused the removal of the first entry it
    tries. *)
Definition rmtree_refused (_ : string) (_ : gset string)
    : option (string * gset string) := Some ("OSError"%string, ∅).

(** The temporary directory root and one file of somebody else. *)
Definition s0 : os :=
  {| paths := {[ "/tmp"; "/tmp/keep" ]}%string; at_exit := [] |}.

(** A body that writes one file into the directory and returns. *)
Definition writes_a_file (d : string) (s : os) : os * outcome string unit :=
  ({| paths := {[ (d +:+ "/data")%string ]} ∪ paths s;
      at_exit := at_exit s |}, Returned tt).

(** A body that writes one file into the directory and raises. *)
Definition writes_and_fails (d : string) (s : os)
    : os * outcome string unit :=
  ({| paths := {[ (d +:+ "/data")%string ]} ∪ paths s;
      at_exit := at_exit s |}, Raised "IOError"%string).
End TempInputs.

(** * Properties *)

(** ** Dictionary helpers *)

Module DictSpec.
Import Dict.
Section facts.
Context {K : Type} `{Countable K}.
Implicit Types (a b m : gmap K pyval) (k : K).

Lemma lookup_merge_loop a b (l : list K) m k :
  foldl (merge_step a b) m l !! k =
    if decide (k ∈ l) then Some (merged a b k) else m !! k.
Proof.
  revert m. induction l as [|x l IH]; intros m; cbn [foldl].
  - case_decide as Hin; [by apply elem_of_nil in Hin | done].
  - rewrite IH. unfold merge_step. rewrite lookup_insert.
    destruct (decide (x = k)) as [->|Hne];
      destruct (decide (k ∈ l)) as [Hl|Hl];
      destruct (decide (k ∈ _ :: l)) as [Hxl|Hxl];
      try done;
      first [ exfalso; apply Hxl; constructor; done
            | apply elem_of_cons in Hxl as [?|?]; done ].
Qed.

Lemma lookup_merge a b k :
  merge a b !! k =
    if decide (k ∈ dom a ∪ dom b) then Some (merged a b k) else None.
Proof.
  unfold merge. rewrite lookup_merge_loop, lookup_empty.
  repeat case_decide; try done; set_solver.
Qed.

Lemma dom_merge a b : dom (merge a b) = dom a ∪ dom b.
Proof.
  apply set_eq; intros k. rewrite elem_of_dom, lookup_merge.
  destruct (decide (k ∈ dom a ∪ dom b)); split; by intros Hk.
Qed.

Lemma lookup_placeholders (keys : list K) k :
  placeholders keys !! k =
    if decide (k ∈ keys) then Some (PyDict ∅) else None.
Proof.
  unfold placeholders.
  enough (Hgen : ∀ m, foldl (λ result k0, <[k0 := PyDict ∅]> result) m keys !! k
            = if decide (k ∈ keys) then Some (PyDict ∅) else m !! k).
  { by rewrite Hgen, lookup_empty. }
  induction keys as [|x l IH]; intros m; cbn [foldl].
  - case_decide as Hin; [by apply elem_of_nil in Hin | done].
  - rewrite IH, lookup_insert.
    destruct (decide (x = k)) as [->|Hne];
      destruct (decide (k ∈ l)) as [Hl|Hl];
      destruct (decide (k ∈ _ :: l)) as [Hxl|Hxl];
      try done;
      first [ exfalso; apply Hxl; constructor; done
            | apply elem_of_cons in Hxl as [?|?]; done ].
Qed.

Lemma lookup_filter_keys mapping (keys : list K) k :
  keys ≠ [] →
  filter_keys mapping (Some keys) !! k =
    if decide (k ∈ keys)
    then Some (default (PyDict ∅) (mapping !! k))
    else None.
Proof.
  intros Hne. destruct keys as [|k0 ks]; [done|].
  unfold filter_keys, update. cbv zeta.
  rewrite lookup_union, map_lookup_filter, lookup_placeholders.
  unfold key_in. simpl.
  destruct (decide (k ∈ k0 :: ks)) as [Hin|Hout];
    destruct (mapping !! k) as [v|] eqn:Hk; simpl; try done.
  - rewrite option_guard_True; [done | by apply bool_decide_eq_true].
  - rewrite option_guard_False; [done |].
    rewrite bool_decide_eq_true. done.
Qed.
End facts.

(** Claim C7.  [merge a b] has exactly the keys of [a] and of [b].  A key whose
    value in [a] is not [None] keeps that value; a key that [a] lacks or
    maps to [None] gets the value of [b], read as [dict_b.get(key)] reads
    it (so [None] where [b] has no such key either).  The two examples of
    the specification evaluate as stated. *)
Theorem merge_spec :
  (∀ (K : Type) `(Countable K) (a b : gmap K pyval),
     dom (merge a b) = dom a ∪ dom b ∧
     ∀ k, k ∈ dom a ∪ dom b →
       (∀ v, a !! k = Some v → v ≠ PyNone → merge a b !! k = Some v) ∧
       (a !! k = None ∨ a !! k = Some PyNone →
          merge a b !! k = Some (get b k) ∧
          ∀ v, b !! k = Some v → merge a b !! k = Some v)) ∧
  merge (K:=string) {[ "a" := PyInt 1 ]} {[ "a" := PyInt 2; "b" := PyInt 3 ]}
    = {[ "a" := PyInt 1; "b" := PyInt 3 ]} ∧
  merge (K:=string) {[ "a" := PyNone ]} {[ "a" := PyInt 2 ]}
    = {[ "a" := PyInt 2 ]}.
Proof.
  split; [|split; by vm_compute].
  intros K ? ? a b. split; [apply dom_merge|].
  intros k Hk. rewrite lookup_merge, decide_True by done.
  unfold merged, get. split.
  - intros v -> Hv. by destruct v.
  - intros Ha.
    assert (Hnone : is_None (default PyNone (a !! k)) = true)
      by (by destruct Ha as [-> | ->]).
    rewrite Hnone. split; [done|]. by intros v ->.
Qed.

Lemma merge_spec_witness :
  merge (K:=string) {[ "a" := PyNone ]} {[ "a" := PyInt 2 ]} !! "a"
    = Some (PyInt 2).
Proof.
  refine (proj2 (proj2 (proj2 (proj1 merge_spec string _ _
            {[ "a" := PyNone ]} {[ "a" := PyInt 2 ]}) "a" _) _) (PyInt 2) _).
  - apply elem_of_union_l, elem_of_dom. exists PyNone. by vm_compute.
  - right. by vm_compute.
  - by vm_compute.
Defined.

(** Claim C8.  For a non-empty collection of keys, [filter_keys mapping keys]
    has exactly the requested keys; a requested key keeps the value it has
    in [mapping] and gets an empty dictionary if [mapping] lacks it.  For
    [None] and for an empty collection the result is [mapping] itself.
    The example of the specification evaluates as stated. *)
Theorem filter_keys_spec :
  (∀ (K : Type) `(Countable K) (mapping : gmap K pyval) (keys : list K),
     keys ≠ [] →
     dom (filter_keys mapping (Some keys)) = list_to_set keys ∧
     ∀ k, k ∈ keys →
       (∀ v, mapping !! k = Some v →
             filter_keys mapping (Some keys) !! k = Some v) ∧
       (mapping !! k = None →
             filter_keys mapping (Some keys) !! k = Some (PyDict ∅))) ∧
  (∀ (K : Type) `(Countable K) (mapping : gmap K pyval),
     filter_keys mapping None = mapping ∧
     filter_keys mapping (Some []) = mapping) ∧
  filter_keys (K:=string) {[ "a" := PyInt 1; "b" := PyInt 2 ]}
              (Some ["a"; "c"])
    = {[ "a" := PyInt 1; "c" := PyDict ∅ ]}.
Proof.
  split; [|split; [done | by vm_compute]].
  intros K ? ? mapping keys Hne. split.
  - apply set_eq; intros k.
    rewrite elem_of_dom, lookup_filter_keys, elem_of_list_to_set by done.
    destruct (decide (k ∈ keys)); split; by intros.
  - intros k Hk. rewrite lookup_filter_keys, decide_True by done.
    split; by intros; simplify_option_eq.
Qed.

Lemma filter_keys_spec_witness :
  filter_keys (K:=string) {[ "a" := PyInt 1; "b" := PyInt 2 ]}
              (Some ["a"; "c"]) !! "c" = Some (PyDict ∅).
Proof.
  refine (proj2 (proj2 (proj1 filter_keys_spec string _ _
            {[ "a" := PyInt 1; "b" := PyInt 2 ]} ["a"; "c"] _) "c" _) _).
  - discriminate.
  - repeat constructor.
  - by vm_compute.
Defined.
End DictSpec.

(** ** Memoization *)

Module MemoSpec.
Import Memo Inputs.



End MemoSpec.

(** ** The retrying shell executor *)

Module ShellSpec.
Import Shell Obs.

(** *** Frames *)

Lemma frame_refl w : frame w w.
Proof.
  repeat split; auto. exists []. split; [|constructor].
  simpl. by rewrite app_nil_r.
Qed.

Lemma frame_trans w1 w2 w3 : frame w1 w2 → frame w2 w3 → frame w1 w3.
Proof.
  intros (He1 & (l1 & Ht1 & Hd1) & Hs1 & Hc1) (He2 & (l2 & Ht2 & Hd2) & Hs2 & Hc2).
  repeat split; auto.
  - congruence.
  - exists (l1 ++ l2). split; [|by apply Forall_app].
    by rewrite Ht2, Ht1, map_app, app_assoc.
Qed.

Lemma frame_emit_log r w : diagnostic r → frame w (emit (Log r) w).
Proof.
  intros Hr. repeat split; auto.
  exists [r]. split; [done | by constructor].
Qed.

Lemma bind_unfold {A B} (m : M A) (k : A → M B) w :
  (m ≫= k) w = match m w with
               | (w1, Ok a) => k a w1
               | (w1, Raise e) => (w1, Raise e)
               end.
Proof. reflexivity. Qed.

Lemma bind_Ok {A B} (m : M A) (k : A → M B) w w' b :
  (m ≫= k) w = (w', Ok b) →
  ∃ w1 a, m w = (w1, Ok a) ∧ k a w1 = (w', Ok b).
Proof.
  rewrite bind_unfold. destruct (m w) as [w1 [a|e]]; [eauto | done].
Qed.

Lemma quiet_ret {A} (a : A) : quiet (mret a).
Proof. intros w. split; [apply frame_refl | done]. Qed.

Lemma quiet_raise {A} e :
  (∀ rc, e ≠ CalledProcessError rc) → quiet (@raise A e).
Proof.
  intros He w. split; [apply frame_refl |].
  intros rc [= ->]. by apply (He rc).
Qed.

Lemma quiet_bind {A B} (m : M A) (k : A → M B) :
  quiet m → (∀ a, quiet (k a)) → quiet (m ≫= k).
Proof.
  intros Hm Hk w. rewrite bind_unfold.
  destruct (Hm w) as [Hf Hne]. destruct (m w) as [w1 [a|e]]; simpl in *.
  - destruct (Hk a w1) as [Hf' Hne']. split; [|done].
    by eapply frame_trans.
  - split; [done|]. intros rc [= ->]. by apply (Hne rc).
Qed.

Lemma quiet_log r : diagnostic r → quiet (log r).
Proof. intros Hr w. split; [by apply frame_emit_log | done]. Qed.

Lemma quiet_subscript d key : quiet (subscript d key).
Proof.
  unfold subscript. destruct (d !! key); [apply quiet_ret|].
  by apply quiet_raise.
Qed.

Lemma quiet_for_each {A} (xs : list A) body :
  (∀ x, quiet (body x)) → quiet (for_each xs body).
Proof.
  intros Hb. induction xs as [|x xs IH]; simpl.
  - apply quiet_ret.
  - apply quiet_bind; auto.
Qed.

Lemma quiet_readlines h : quiet (readlines h).
Proof.
  intros w. unfold readlines.
  destruct (files w !! h) as [f|] eqn:Hf; [|split; [apply frame_refl | done]].
  destruct (closed f) eqn:Hc; [split; [apply frame_refl | done]|].
  destruct (readable f); cbn [negb fst snd];
    [|split; [apply frame_refl | done]].
  split; [|done]. unfold frame, closed_in, set_files; cbn [files executions trace].
  repeat split.
  - exists []. split; [by rewrite app_nil_r | constructor].
  - intros h0 Hs. rewrite lookup_insert. case_decide; [eauto | done].
  - intros h0 (f0 & Hf0 & Hc0). rewrite lookup_insert.
    case_decide; [|by exists f0]. simplify_eq/=. congruence.
Qed.

Lemma closed_in_alter_close w h h0 :
  closed_in w h0 →
  closed_in (set_files (alter close_file h (files w)) w) h0.
Proof.
  intros (f0 & Hf0 & Hc0). unfold closed_in, set_files. cbn [files].
  rewrite lookup_alter. case_decide; [|by exists f0].
  simplify_eq/=. rewrite Hf0. by exists (close_file f0).
Qed.

Lemma frame_alter_close w h :
  frame w (set_files (alter close_file h (files w)) w).
Proof.
  unfold frame, set_files; cbn [files executions trace]. repeat split.
  - exists []. split; [by rewrite app_nil_r | constructor].
  - intros h0 Hs. rewrite lookup_alter.
    case_decide; [|done]. simplify_eq/=. by apply fmap_is_Some.
  - intros h0. apply closed_in_alter_close.
Qed.

Lemma quiet_with_file {A} h (body : handle → M A) :
  (∀ fi, quiet (body fi)) → quiet (with_file h body).
Proof.
  intros Hb w. unfold with_file.
  destruct (files w !! h) as [f|] eqn:Hf; [|split; [apply frame_refl | done]].
  destruct (closed f) eqn:Hc; [split; [apply frame_refl | done]|].
  destruct (Hb h w) as [Hfr Hne]. destruct (body h w) as [w1 r]; simpl in *.
  split; [|done]. eapply frame_trans; [done | apply frame_alter_close].
Qed.

Lemma with_file_Ok_closes {A} h (body : handle → M A) w w' a :
  (∀ fi, quiet (body fi)) →
  with_file h body w = (w', Ok a) → closed_in w' h.
Proof.
  intros Hb. unfold with_file.
  destruct (files w !! h) as [f|] eqn:Hf; [|done].
  destruct (closed f) eqn:Hc; [done|].
  destruct (Hb h w) as [(_ & _ & Hs & _) _].
  destruct (body h w) as [w1 r]; simpl in *. intros [= <- ->].
  destruct (Hs h) as [f1 Hf1]; [by rewrite Hf|].
  exists (close_file f1). unfold set_files; cbn [files].
  by rewrite lookup_alter_eq, Hf1.
Qed.

Lemma quiet_dump fi :
  quiet (lines ← readlines fi; for_each lines (λ line, log (Info line))).
Proof.
  apply quiet_bind; [apply quiet_readlines|].
  intros lines. apply quiet_for_each. intros line. by apply quiet_log.
Qed.

(** Decomposes a sequence of logging steps into its parts. *)
Ltac solve_quiet :=
  repeat first
    [ apply quiet_bind; [|intros ?]
    | apply quiet_log; done
    | apply quiet_subscript
    | apply quiet_with_file; intros ?; apply quiet_dump ].

Lemma quiet_log_failure attempt max_tries args :
  quiet (log_failure attempt max_tries args).
Proof.
  unfold log_failure.
  solve_quiet.
Qed.

Lemma subscript_Ok d key w w' h :
  subscript d key w = (w', Ok h) → d !! key = Some h ∧ w' = w.
Proof.
  unfold subscript. destruct (d !! key); [|done].
  by intros [= <- <-].
Qed.

Lemma log_failure_Ok_closes attempt max_tries args w w' u :
  log_failure attempt max_tries args w = (w', Ok u) →
  ∃ o, args !! "stdout" = Some o ∧ closed_in w' o.
Proof.
  unfold log_failure. intros Hrun.
  do 7 (apply bind_Ok in Hrun as (? & ? & _ & Hrun)).
  apply bind_Ok in Hrun as (wa & o & Ho & Hrun).
  apply subscript_Ok in Ho as [Ho ->].
  apply bind_Ok in Hrun as (wb & ? & Hwith & Hrest).
  apply with_file_Ok_closes in Hwith; [|apply quiet_dump].
  exists o. split; [done|].
  assert (Hq : quiet (log (Info "stderr_file:::") ;;
                      e ← subscript args "stderr" ;
                      with_file e (λ fi, lines ← readlines fi ;
                        for_each lines (λ line, log (Info line))))).
  { solve_quiet. }
  destruct (Hq wb) as [(_ & _ & _ & Hc) _].
  rewrite Hrest in Hc. by apply Hc.
Qed.

(** *** One attempt *)

Lemma back_off_unfold attempt w :
  back_off attempt w =
    ({| files := files w; executions := executions w;
        trace := trace w ++
          [Log (Waiting (BASE_RETRY_DELAY_IN_SECONDS * 2 ^ attempt) attempt);
           Sleep (BASE_RETRY_DELAY_IN_SECONDS * 2 ^ attempt);
           Log (Retrying attempt)] |}, Ok tt).
Proof.
  unfold back_off, log, sleep, emit. rewrite !bind_unfold.
  cbn [files executions trace]. by rewrite <- !app_assoc.
Qed.

Lemma fileno_cases h w :
  fileno h w = (w, Ok tt) ∧ open_in w h ∨
  fileno h w = (w, Raise ValueError) ∧ closed_in w h ∨
  fileno h w = (w, Raise AttributeError) ∧ files w !! h = None.
Proof.
  unfold fileno, open_in, closed_in.
  destruct (files w !! h) as [f|]; [|by right; right].
  destruct (closed f) eqn:Hc; [right; left | left]; eauto.
Qed.

Lemma check_call_closed_stdout cmd args w o :
  args !! "stdout" = Some o → closed_in w o →
  check_call cmd args w = (w, Raise ValueError).
Proof.
  intros Ho (f & Hf & Hc). unfold check_call. rewrite Ho, bind_unfold.
  unfold fileno. by rewrite Hf, Hc.
Qed.

(** [check_call] either raises before anything is run, or runs the
    command once and reports its exit status. *)
Lemma check_call_cases cmd args w :
  (check_call cmd args w = (w, Raise ValueError) ∨
   check_call cmd args w = (w, Raise AttributeError)) ∨
  ∃ w1, check_call cmd args w =
          (w1, let rc := exit_status (cmd (executions w)) in
               if rc =? 0 then Ok 0 else Raise (CalledProcessError rc)) ∧
        executions w1 = S (executions w) ∧
        trace w1 = trace w ++ [Exec (exit_status (cmd (executions w)))].
Proof.
  unfold check_call. rewrite bind_unfold.
  assert (Hsink : ∀ k,
    (match args !! k with Some h => fileno h | None => ret tt end) w
      = (w, Ok tt) ∨
    (match args !! k with Some h => fileno h | None => ret tt end) w
      = (w, Raise ValueError) ∨
    (match args !! k with Some h => fileno h | None => ret tt end) w
      = (w, Raise AttributeError)).
  { intros k. destruct (args !! k) as [h|]; [|by left].
    destruct (fileno_cases h w) as [[Hr _]|[[Hr _]|[Hr _]]];
      rewrite Hr; auto. }
  destruct (Hsink "stdout") as [Hr|[Hr|Hr]]; rewrite Hr;
    [|by left; left|by left; right].
  cbv beta iota. rewrite bind_unfold.
  destruct (Hsink "stderr") as [Hr'|[Hr'|Hr']]; rewrite Hr';
    [|by left; left|by left; right].
  cbv beta iota. rewrite bind_unfold.
  right. unfold run. cbv zeta beta iota.
  destruct (exit_status (cmd (executions w)) =? 0) eqn:Hrc;
    eexists; (split; [reflexivity | by split]).
Qed.

Lemma check_call_usable cmd w args :
  (∀ h, args !! "stdout" = Some h → open_in w h) →
  (∀ h, args !! "stderr" = Some h → open_in w h) →
  ∃ w1, check_call cmd args w =
          (w1, let rc := exit_status (cmd (executions w)) in
               if rc =? 0 then Ok 0 else Raise (CalledProcessError rc)) ∧
        executions w1 = S (executions w) ∧
        trace w1 = trace w ++ [Exec (exit_status (cmd (executions w)))].
Proof.
  intros Hout Herr. unfold check_call. rewrite bind_unfold.
  assert (Hsink : ∀ k, (∀ h, args !! k = Some h → open_in w h) →
    (match args !! k with Some h => fileno h | None => ret tt end) w
      = (w, Ok tt)).
  { intros k Hk. destruct (args !! k) as [h|]; [|done].
    destruct (Hk h eq_refl) as (f & Hf & Hc).
    unfold fileno. by rewrite Hf, Hc. }
  rewrite (Hsink "stdout" Hout). cbv beta iota. rewrite bind_unfold.
  rewrite (Hsink "stderr" Herr). cbv beta iota. rewrite bind_unfold.
  unfold run. cbv zeta beta iota.
  destruct (exit_status (cmd (executions w)) =? 0) eqn:Hrc;
    eexists; (split; [reflexivity | by split]).
Qed.

(** After a handled failure the recursive call never runs the command. *)
Lemma retry_closed_stdout cmd attempt max_tries args w o :
  args !! "stdout" = Some o → closed_in w o →
  _retry_execute_shell cmd attempt max_tries args w = (w, Raise ValueError).
Proof.
  intros Ho Hc. simp _retry_execute_shell.
  rewrite (check_call_closed_stdout cmd args w o Ho Hc). by simp _retry_execute_shell.
Qed.

Lemma retry_attempt_once cmd attempt max_tries args w :
  _retry_execute_shell cmd attempt max_tries args w =
    attempt_once cmd attempt max_tries args w.
Proof.
  simp _retry_execute_shell. unfold attempt_once.
  destruct (check_call cmd args w) as [w1 [return_val|e]];
    simp _retry_execute_shell; [done|].
  destruct e as [rc| | | |]; simp _retry_execute_shell; try done.
  rewrite bind_unfold.
  destruct (log_failure attempt max_tries args w1) as [w2 [u|e]] eqn:Hlog;
    simp _retry_execute_shell; [|done].
  apply log_failure_Ok_closes in Hlog as (o & Ho & f & Hf & Hc).
  rewrite back_off_unfold. simp _retry_execute_shell.
  destruct (decide (attempt + 1 >= max_tries)) as [Hge|Hlt];
    simp _retry_execute_shell; [done|].
  rewrite (check_call_closed_stdout cmd args _ o Ho) by (by exists f).
  by simp _retry_execute_shell.
Qed.

(** The four ways a call of [_retry_execute_shell] can go. *)
Lemma retry_cases cmd attempt max_tries args w :
  let r := _retry_execute_shell cmd attempt max_tries args w in
  let rc := exit_status (cmd (executions w)) in
  let delay := BASE_RETRY_DELAY_IN_SECONDS * 2 ^ (attempt + 1) in
  (* a sink cannot be used: nothing is run *)
  (check_call cmd args w = r ∧
   (r = (w, Raise ValueError) ∨ r = (w, Raise AttributeError))) ∨
  (* the command succeeds *)
  (rc = 0 ∧ r.2 = Ok 0 ∧ executions r.1 = S (executions w) ∧
   trace r.1 = trace w ++ [Exec 0]) ∨
  (* the command fails and so does the logging of the failure *)
  (rc ≠ 0 ∧ executions r.1 = S (executions w) ∧
   ∃ e logs, r.2 = Raise e ∧ (∀ rc', e ≠ CalledProcessError rc') ∧
     trace r.1 = trace w ++ Exec rc :: map Log logs ∧
     Forall diagnostic logs) ∨
  (* the command fails and the failure is handled *)
  (rc ≠ 0 ∧ executions r.1 = S (executions w) ∧
   (r.2 = if decide (attempt + 1 >= max_tries)
          then Raise (CalledProcessError rc) else Raise ValueError) ∧
   (∃ o, args !! "stdout" = Some o ∧ closed_in r.1 o) ∧
   ∃ logs, Forall diagnostic logs ∧
     trace r.1 = trace w ++ Exec rc :: map Log logs ++
       [Log (Waiting delay (attempt + 1)); Sleep delay;
        Log (Retrying (attempt + 1))]).
Proof.
  cbv zeta. rewrite retry_attempt_once. unfold attempt_once.
  destruct (check_call_cases cmd args w) as [[Hcc|Hcc]|(w1 & Hcc & He1 & Ht1)];
    rewrite Hcc; [by left; split; [|left] | by left; split; [|right] |]. right.
  cbv zeta. destruct (Z.eqb_spec (exit_status (cmd (executions w))) 0) as [Hrc|Hrc].
  { left. rewrite Hrc in Ht1. by cbn. }
  right. rewrite bind_unfold.
  destruct (quiet_log_failure attempt max_tries args w1)
    as [(He2 & (logs & Ht2 & Hlogs) & _ & _) Hne].
  destruct (log_failure attempt max_tries args w1) as [w2 [u|e]] eqn:Hlog;
    cbn [fst snd] in *.
  - right. rewrite back_off_unfold.
    apply log_failure_Ok_closes in Hlog as (o & Ho & f & Hf & Hc).
    destruct (decide (attempt + 1 >= max_tries)); cbn [fst snd files executions trace];
      (split; [done|]; split; [congruence|]; split; [done|]; split;
       [exists o; split; [done | by exists f] |];
       exists logs; split; [done|];
       by rewrite Ht2, Ht1, <- !app_assoc).
  - left. split; [done|]. split; [congruence|].
    exists e, logs. split; [done|]. split; [intros rc' ->; by apply (Hne rc')|].
    split; [|done]. by rewrite Ht2, Ht1, <- app_assoc.
Qed.

Lemma execute_shell_unfold cmd kw w :
  execute_shell cmd kw w =
    _retry_execute_shell cmd 1 (default 1 (max_tries kw))
                         (additional_args_of kw) w.
Proof. unfold execute_shell. by destruct (max_tries kw). Qed.

Lemma lookup_additional_args kw :
  additional_args_of kw !! "stdout" = stdout_file kw ∧
  additional_args_of kw !! "stderr" = stderr_file kw.
Proof.
  unfold additional_args_of.
  destruct (stdout_file kw), (stderr_file kw); cbv zeta; split;
    by simplify_map_eq.
Qed.

(** *** What the trace of a call looks like *)

Lemma emitted_app w w' evs :
  trace w' = trace w ++ evs → emitted w w' = evs.
Proof. unfold emitted. intros ->. by rewrite drop_app_length. Qed.

Lemma emitted_same w : emitted w w = [].
Proof. apply emitted_app. by rewrite app_nil_r. Qed.

Lemma sleeps_logs logs : sleeps (map Log logs) = [].
Proof. by induction logs. Qed.

Lemma execs_logs logs : execs (map Log logs) = [].
Proof. by induction logs. Qed.

Lemma execs_attempt rc logs evs :
  execs (Exec rc :: map Log logs ++ evs) = rc :: execs evs.
Proof.
  unfold execs. cbn [omap list_omap]. rewrite omap_app.
  fold (execs (map Log logs)). by rewrite execs_logs.
Qed.

Lemma sleeps_attempt rc logs evs :
  sleeps (Exec rc :: map Log logs ++ evs) = sleeps evs.
Proof.
  unfold sleeps. cbn [omap list_omap]. rewrite omap_app.
  fold (sleeps (map Log logs)). by rewrite sleeps_logs.
Qed.

(** Whatever the arguments, one call runs the command at most once. *)
Lemma at_most_one_execution cmd attempt max_tries args w :
  (executions (_retry_execute_shell cmd attempt max_tries args w).1
     ≤ S (executions w))%nat.
Proof.
  destruct (retry_cases cmd attempt max_tries args w)
    as [[_ [Hr|Hr]]|[(_ & _ & He & _)|[(_ & He & _)|(_ & He & _)]]];
    rewrite ?Hr, ?He; cbn [fst]; lia.
Qed.

(** *** The claims about the executor *)
Import Inputs.

(** Claim C1, checked at a failing input.  The claim asks for exactly
    [max_tries] execution attempts of a command that always fails.  With
    [max_tries = 2] and both sinks supplied, [execute_shell] runs the
    command once, sleeps 20 seconds and raises the failure of that single
    attempt; with [max_tries = 3] it also runs the command once, and the
    retry raises [ValueError] on the sink that line 167 closed. *)
Theorem two_tries_run_the_command_once :
  let r2 := execute_shell always_fails (both_sinks 2) w0 in
  let r3 := execute_shell always_fails (both_sinks 3) w0 in
  (r2.2 = Raise (CalledProcessError 1) ∧
   executions r2.1 = 1%nat ∧
   execs (trace r2.1) = [1] ∧ sleeps (trace r2.1) = [20]) ∧
  (r3.2 = Raise ValueError ∧
   executions r3.1 = 1%nat ∧
   execs (trace r3.1) = [1] ∧ sleeps (trace r3.1) = [20]).
Proof. vm_compute. repeat split; reflexivity. Qed.

(** Claim C2, checked at a failing input.  The claim asks for success after
    [k + 1] attempts when the command fails [k] times and
    [max_tries > k].  With [k = 1] the command that fails once is run
    once and never again: for [max_tries = 2] the call raises the failure
    of the first attempt after sleeping 20 seconds, for [max_tries = 3]
    the retry raises [ValueError] on the closed sink. *)
Theorem one_failure_is_never_retried :
  let r2 := execute_shell fails_once (both_sinks 2) w0 in
  let r3 := execute_shell fails_once (both_sinks 3) w0 in
  exit_status (fails_once 0%nat) = 1 ∧ exit_status (fails_once 1%nat) = 0 ∧
  (r2.2 = Raise (CalledProcessError 1) ∧
   execs (trace r2.1) = [1] ∧ sleeps (trace r2.1) = [20]) ∧
  (r3.2 = Raise ValueError ∧
   execs (trace r3.1) = [1] ∧ sleeps (trace r3.1) = [20]).
Proof. vm_compute. repeat split; reflexivity. Qed.

(** Claim C3 as stated fails: with [max_tries = 0] the command is run and, as
    it exits with status 0, the call returns 0; nothing is rejected. *)
Lemma max_tries_zero_is_not_rejected :
  max_tries (both_sinks 0) = Some 0 ∧
  (execute_shell succeeds (both_sinks 0) w0).2 = Ok 0 ∧
  trace (execute_shell succeeds (both_sinks 0) w0).1 = [Exec 0] ∧
  ¬ fails_fast succeeds (both_sinks 0) w0.
Proof.
  split; [reflexivity|]. split; [by vm_compute|]. split; [by vm_compute|].
  intros [[e He] _]. vm_compute in He. discriminate He.
Qed.

(** Claim C3, amended.  A call with [max_tries < 1] whose sinks are open files
    is not rejected: the command is run exactly once; if it exits with
    status 0 the call returns 0 without sleeping, and if it exits with
    another status the call raises without a second run. *)
Theorem malformed_max_tries_runs_one_attempt cmd kw w n :
  max_tries kw = Some n → n < 1 → sinks_usable kw w →
  let r := execute_shell cmd kw w in
  let rc := exit_status (cmd (executions w)) in
  executions r.1 = S (executions w) ∧
  (rc = 0 → r.2 = Ok 0 ∧ emitted w r.1 = [Exec 0]) ∧
  (rc ≠ 0 → ∃ e, r.2 = Raise e).
Proof.
  intros Hn Hlt [Hout Herr]. cbv zeta. rewrite execute_shell_unfold, Hn.
  change (default 1 (Some n)) with n.
  destruct (lookup_additional_args kw) as [Hlo Hle].
  destruct (check_call_usable cmd w (additional_args_of kw))
    as (w1 & Hcc & He1 & _).
  { intros h. rewrite Hlo. apply Hout. }
  { intros h. rewrite Hle. apply Herr. }
  destruct (retry_cases cmd 1 n (additional_args_of kw) w)
    as [[Hsame Hr]|[(Hrc & Hres & He & Ht)|[(Hrc & He & e & logs & Hres & _)
                   |(Hrc & He & Hres & _)]]].
  - exfalso. rewrite Hcc in Hsame.
    assert (Hw : w1 = w) by (destruct Hr as [Hr|Hr]; rewrite Hr in Hsame;
                             by injection Hsame).
    subst w1. lia.
  - split; [done|]. split; [|done].
    intros _. split; [done|]. by apply emitted_app.
  - split; [done|]. split; [done|]. intros _. by exists e.
  - split; [done|]. split; [done|]. intros _. rewrite Hres.
    destruct (decide (1 + 1 >= n)); eauto.
Qed.

Lemma malformed_max_tries_runs_one_attempt_witness :
  executions (execute_shell succeeds (both_sinks 0) w0).1 = 1%nat.
Proof.
  refine (proj1 (malformed_max_tries_runs_one_attempt
                   succeeds (both_sinks 0) w0 0 _ _ _)).
  - reflexivity.
  - lia.
  - split; intros h [= <-]; eexists; (split; [by vm_compute | reflexivity]).
Defined.

(** Claim C4, checked at a failing input.  The claim asks that a failure while
    the captured output is logged never replaces the command failure.
    With no sink supplied, line 164 raises [KeyError] for the missing
    key, and that is what the caller gets instead of the
    [CalledProcessError] of the command. *)
Theorem missing_sink_masks_the_failure :
  let r := execute_shell always_fails no_kwargs w0 in
  r.2 = Raise (KeyError "stdout") ∧
  execs (trace r.1) = [1] ∧ sleeps (trace r.1) = [].
Proof. vm_compute. repeat split; reflexivity. Qed.

(** Claim C5, checked at a failing input.  The claim asks that, once the
    attempts allowed are used up, the caller gets the failure of the
    process with its exit status.  With [max_tries] left at its default of
    1 and no sink supplied, the one attempt allowed is made and fails with
    exit status 1, and the call raises [KeyError] for the key that line
    164 subscripts; with [stdout_file] alone the same happens at line 171.
    No [CalledProcessError] reaches the caller. *)
Theorem used_up_budget_raises_another_error :
  let r := execute_shell always_fails no_kwargs w0 in
  let r' := execute_shell always_fails
              {| stdout_file := Some 0%nat; stderr_file := None;
                 max_tries := Some 1 |} w0 in
  (executions r.1 = 1%nat ∧ execs (trace r.1) = [1] ∧
   r.2 = Raise (KeyError "stdout")) ∧
  (executions r'.1 = 1%nat ∧ execs (trace r'.1) = [1] ∧
   r'.2 = Raise (KeyError "stderr")).
Proof. vm_compute. repeat split; reflexivity. Qed.

(** Claim C6, checked at a failing input.  The claim asks that the sinks are
    left open and usable after every attempt.  Both sinks are open when
    [execute_shell] is called; after the one failed attempt both are
    closed (lines 167 and 171 leave their [with] blocks), so the retry
    allowed by [max_tries = 3] cannot use them. *)
Theorem failed_attempt_closes_the_sinks :
  let r1 := execute_shell always_fails (both_sinks 1) w0 in
  let r3 := execute_shell always_fails (both_sinks 3) w0 in
  (closed <$> files w0 !! 0%nat = Some false ∧
   closed <$> files w0 !! 1%nat = Some false) ∧
  (closed <$> files r1.1 !! 0%nat = Some true ∧
   closed <$> files r1.1 !! 1%nat = Some true) ∧
  (r3.2 = Raise ValueError ∧ executions r3.1 = 1%nat).
Proof. vm_compute. repeat split; reflexivity. Qed.

(** Claim C10, checked at a failing input.  The claim asks that every
    failed attempt is followed by the back-off sleep before anything else
    happens.  Called with no sink, [_retry_execute_shell] runs the
    command, which fails, and raises [KeyError] from line 164 without
    having slept, be the attempt the last one allowed ([max_tries = 1])
    or not ([max_tries = 3]); lines 178-181 are not reached. *)
Theorem failed_attempt_without_sleep :
  let r1 := _retry_execute_shell always_fails 1 1 ∅ w0 in
  let r3 := _retry_execute_shell always_fails 1 3 ∅ w0 in
  (execs (trace r1.1) = [1] ∧ sleeps (trace r1.1) = [] ∧
   r1.2 = Raise (KeyError "stdout")) ∧
  (execs (trace r3.1) = [1] ∧ sleeps (trace r3.1) = [] ∧
   r3.2 = Raise (KeyError "stdout")).
Proof. vm_compute. repeat split; reflexivity. Qed.
End ShellSpec.

(** ** More about the dictionary helpers *)

Module DictMore.
Import Dict DictSpec.
Section more.
Context {K : Type} `{Countable K}.
Implicit Types (a b c m : gmap K pyval) (k : K).

Lemma get_merge a b k : get (merge a b) k = merged a b k.
Proof.
  unfold get at 1. rewrite lookup_merge.
  destruct (decide (k ∈ dom a ∪ dom b)) as [Hin|Hout]; [done|].
  apply not_elem_of_union in Hout as [Ha Hb].
  apply not_elem_of_dom in Ha, Hb. unfold merged, get. by rewrite Ha, Hb.
Qed.
End more.

(** X1.  The empty dictionary is a unit of [merge] on both sides, and merging
    a dictionary with itself gives it back: no key is added or lost and a
    [None] value stays [None]. *)
Theorem merge_unit_idempotent {K : Type} `{Countable K} (a : gmap K pyval) :
  merge a ∅ = a ∧ merge ∅ a = a ∧ merge a a = a.
Proof.
  repeat split; apply map_eq; intros k; rewrite lookup_merge;
    rewrite ?dom_empty_L, ?union_empty_r_L, ?union_empty_l_L, ?union_idemp_L;
    unfold merged, get; rewrite ?lookup_empty;
    (destruct (decide (k ∈ dom a)) as [Hin|Hout];
     [ apply elem_of_dom in Hin as [v Hv]; rewrite Hv; by destruct v
     | by apply not_elem_of_dom in Hout ]).
Qed.

(** X2.  [merge] is associative: merging three dictionaries gives, for every
    key of any of them, the first value that is not [None], whichever two
    are merged first. *)
Theorem merge_assoc {K : Type} `{Countable K} (a b c : gmap K pyval) :
  merge (merge a b) c = merge a (merge b c).
Proof.
  apply map_eq; intros k. rewrite !lookup_merge, !dom_merge.
  rewrite (assoc_L (∪)).
  destruct (decide (k ∈ dom a ∪ dom b ∪ dom c)); [|done].
  f_equal. unfold merged. rewrite !get_merge. unfold merged.
  destruct (is_None (get a k)) eqn:Ha, (is_None (get b k)) eqn:Hb;
    cbn; by rewrite ?Ha, ?Hb.
Qed.

(** X3.  When no value of [a] is [None], [merge a b] is the union of the two
    dictionaries in which the entries of [a] win. *)
Theorem merge_without_None {K : Type} `{Countable K} (a b : gmap K pyval) :
  (∀ k, a !! k ≠ Some PyNone) → merge a b = a ∪ b.
Proof.
  intros Ha. apply map_eq; intros k.
  rewrite lookup_merge, lookup_union. unfold merged, get.
  pose proof (Ha k) as Hk.
  destruct (decide (k ∈ dom a ∪ dom b)) as [Hin|Hout].
  - destruct (a !! k) as [v|] eqn:Hak, (b !! k) as [v'|] eqn:Hbk; cbn.
    + by destruct v.
    + by destruct v.
    + done.
    + apply elem_of_union in Hin as [Hin|Hin];
        apply elem_of_dom in Hin as [? ?]; congruence.
  - apply not_elem_of_union in Hout as [Hna Hnb].
    apply not_elem_of_dom in Hna, Hnb. by rewrite Hna, Hnb.
Qed.

Lemma merge_without_None_witness :
  merge (K:=string) {[ "a" := PyInt 1 ]} {[ "a" := PyInt 2; "b" := PyInt 3 ]}
    = ({[ "a" := PyInt 1 ]} : gmap string pyval)
      ∪ {[ "a" := PyInt 2; "b" := PyInt 3 ]}.
Proof.
  apply merge_without_None. intros k.
  destruct (decide (k = "a")) as [->|Hne].
  - by vm_compute.
  - by rewrite lookup_singleton_ne.
Defined.

(** X4.  The result of [filter_keys] depends on which keys are requested, not
    on their order or on repetitions among them, so a list, a tuple and a
    set of the same keys select the same dictionary. *)
Theorem filter_keys_order_irrelevant {K : Type} `{Countable K}
    (mapping : gmap K pyval) (keys1 keys2 : list K) :
  keys1 ≠ [] → (∀ k, k ∈ keys1 ↔ k ∈ keys2) →
  filter_keys mapping (Some keys1) = filter_keys mapping (Some keys2).
Proof.
  intros Hne Hsame.
  assert (Hne2 : keys2 ≠ []).
  { destruct keys1 as [|k0 ks]; [done|]. intros ->.
    by apply (not_elem_of_nil k0), Hsame, list_elem_of_here. }
  apply map_eq; intros k. rewrite !lookup_filter_keys by done.
  destruct (decide (k ∈ keys1)) as [Hin|Hout];
    destruct (decide (k ∈ keys2)) as [Hin2|Hout2]; try done.
  - by apply Hsame in Hin.
  - by apply Hsame in Hin2.
Qed.

Lemma filter_keys_order_irrelevant_witness :
  filter_keys (K:=string) {[ "a" := PyInt 1; "b" := PyInt 2 ]}
              (Some ["a"; "c"])
  = filter_keys {[ "a" := PyInt 1; "b" := PyInt 2 ]} (Some ["c"; "a"; "c"]).
Proof.
  apply filter_keys_order_irrelevant; [discriminate|].
  intros k. rewrite !elem_of_cons, !elem_of_nil. tauto.
Defined.

(** X5.  Selecting twice is selecting once with the narrower request: for
    non-empty [keys2] all among [keys1], filtering by [keys1] and then by
    [keys2] equals filtering by [keys2]; in particular [filter_keys] is
    idempotent. *)
Theorem filter_keys_narrow {K : Type} `{Countable K}
    (mapping : gmap K pyval) (keys1 keys2 : list K) :
  keys2 ≠ [] → (∀ k, k ∈ keys2 → k ∈ keys1) →
  filter_keys (filter_keys mapping (Some keys1)) (Some keys2)
    = filter_keys mapping (Some keys2).
Proof.
  intros Hne Hsub.
  assert (Hne1 : keys1 ≠ []).
  { destruct keys2 as [|k0 ks]; [done|]. intros ->.
    by apply (not_elem_of_nil k0), Hsub, list_elem_of_here. }
  apply map_eq; intros k. rewrite !lookup_filter_keys by done.
  destruct (decide (k ∈ keys2)) as [Hin|Hout]; [|done].
  by rewrite decide_True by auto.
Qed.

Lemma filter_keys_narrow_witness :
  filter_keys (K:=string)
    (filter_keys {[ "a" := PyInt 1; "b" := PyInt 2 ]} (Some ["a"; "b"; "c"]))
    (Some ["c"; "a"])
  = filter_keys {[ "a" := PyInt 1; "b" := PyInt 2 ]} (Some ["c"; "a"]).
Proof.
  apply filter_keys_narrow; [discriminate|].
  intros k. rewrite !elem_of_cons, !elem_of_nil. tauto.
Defined.
End DictMore.

(** ** More about memoization *)

Module MemoMore.
Import Memo MemoRun Inputs.
#[local] Set Warnings "-clear-no-such-hyp".
Section more.
Context {Args Kwargs R : Type}.
Variable str_args : Args → string.
Variable str_kwargs : Kwargs → string.
Variable obj : Args → Kwargs → R.

Local Abbreviation key := (key_of str_args str_kwargs).
Local Abbreviation run := (call_all str_args str_kwargs obj).
Local Abbreviation wrapped := (memoizer str_args str_kwargs obj).
Local Abbreviation answer := (answer str_args str_kwargs obj).

Lemma call_all_cons c rest st :
  run (c :: rest) st =
    ((wrapped c.1 c.2 st).1 :: (run rest (wrapped c.1 c.2 st).2).1,
     (run rest (wrapped c.1 c.2 st).2).2).
Proof.
  cbn [call_all]. destruct (wrapped c.1 c.2 st) as [r st1].
  cbn [fst snd]. by destruct (run rest st1) as [rs st2].
Qed.

Lemma call_all_lookup calls st i c :
  calls !! i = Some c → (run calls st).1 !! i = Some (answer st calls c).
Proof.
  revert st i. induction calls as [|c0 rest IH]; intros st i Hi; [done|].
  rewrite call_all_cons. cbn [fst]. unfold answer.
  destruct i as [|i]; cbn [lookup list_lookup] in *.
  - injection Hi as ->. unfold memoizer. fold (key c).
    destruct (cache st !! key c) as [r|] eqn:Hc; cbn [fst]; [done|].
    cbn [list_find]. by rewrite decide_True.
  - rewrite (IH _ _ Hi). f_equal. unfold answer, memoizer. fold (key c0).
    cbn [list_find].
    destruct (cache st !! key c0) as [r0|] eqn:Hc0; cbn [snd cache].
    + destruct (cache st !! key c) as [r|] eqn:Hc; [done|].
      rewrite decide_False by congruence.
      by destruct (list_find (λ c', key c' = key c) rest) as [[j c']|].
    + destruct (decide (key c0 = key c)) as [Heq|Hne].
      * by rewrite <- Heq, lookup_insert_eq, Hc0.
      * rewrite lookup_insert_ne by done.
        destruct (cache st !! key c) as [r|]; [done|].
        by destruct (list_find (λ c', key c' = key c) rest) as [[j c']|].
Qed.

Lemma call_all_invocations calls st :
  dom (cache st) = list_to_set (key <$> invocations st) →
  NoDup (key <$> invocations st) →
  let st' := (run calls st).2 in
  dom (cache st') = dom (cache st) ∪ list_to_set (key <$> calls) ∧
  dom (cache st') = list_to_set (key <$> invocations st') ∧
  NoDup (key <$> invocations st') ∧
  ∃ new, invocations st' = invocations st ++ new ∧ sublist new calls.
Proof.
  revert st. induction calls as [|c0 rest IH]; intros st Hdom Hnd; cbv zeta.
  - cbn. rewrite union_empty_r_L. repeat split; try done.
    exists []. by rewrite app_nil_r.
  - rewrite call_all_cons. cbn [snd]. unfold memoizer at 1 2 3 4 5.
    fold (key c0).
    destruct (cache st !! key c0) as [r0|] eqn:Hc0; cbn [snd].
    + destruct (IH st Hdom Hnd) as (Hd1 & Hd2 & Hnd' & new & Hinv & Hsub).
      repeat split; try done.
      * rewrite Hd1. cbn [fmap list_fmap list_to_set].
        assert (key c0 ∈ dom (cache st)) by (by apply elem_of_dom).
        set_solver.
      * exists new. split; [done | by apply sublist_cons].
    + set (st1 := {| cache := <[key c0 := obj c0.1 c0.2]> (cache st);
                     invocations := invocations st ++ [(c0.1, c0.2)] |}).
      assert (Hc : (c0.1, c0.2) = c0) by (by destruct c0).
      destruct (IH st1) as (Hd1 & Hd2 & Hnd' & new & Hinv & Hsub).
      { subst st1. cbn [cache invocations].
        rewrite dom_insert_L, Hdom, fmap_app, list_to_set_app_L, Hc.
        cbn. set_solver. }
      { subst st1. cbn [invocations]. rewrite fmap_app, Hc.
        apply NoDup_app. split; [done|]. split; [|apply NoDup_singleton].
        intros x Hx ->%list_elem_of_singleton.
        apply not_elem_of_dom in Hc0. apply Hc0. rewrite Hdom.
        by apply elem_of_list_to_set. }
      repeat split; try done.
      * rewrite Hd1. subst st1. cbn [cache].
        rewrite dom_insert_L. cbn [fmap list_fmap list_to_set]. set_solver.
      * exists (c0 :: new). subst st1. cbn [invocations] in Hinv.
        rewrite Hinv, Hc, <- app_assoc. split; [done | by apply sublist_skip].
Qed.

Lemma call_all_length calls st : length (run calls st).1 = length calls.
Proof.
  revert st. induction calls as [|c0 rest IH]; intros st; [done|].
  rewrite call_all_cons. cbn [fst length]. by rewrite IH.
Qed.
End more.

(** X6.  In a sequence of calls on a fresh wrapper, every call returns what
    the function gives for the first call of the sequence that has the
    same [str(args) + str(kwargs)], which is the call itself or an earlier
    one. *)
Theorem first_call_with_the_key_answers {Args Kwargs R : Type}
    (str_args : Args → string) (str_kwargs : Kwargs → string)
    (obj : Args → Kwargs → R) (calls : list (Args * Kwargs)) (i : nat) c :
  let key := key_of str_args str_kwargs in
  calls !! i = Some c →
  ∃ (j : nat) c', calls !! j = Some c' ∧ (j ≤ i)%nat ∧ key c' = key c ∧
    (∀ (j' : nat) c'', (j' < j)%nat → calls !! j' = Some c'' →
                       key c'' ≠ key c) ∧
    (call_all str_args str_kwargs obj calls memoize).1 !! i
      = Some (obj c'.1 c'.2).
Proof.
  cbv zeta. intros Hi.
  rewrite (call_all_lookup _ _ _ _ _ _ _ Hi). unfold answer, memoize.
  cbn [cache]. rewrite lookup_empty.
  destruct (list_find_elem_of
              (λ c', key_of str_args str_kwargs c' = key_of str_args str_kwargs c)
              calls c) as [[j c'] Hfind];
    [by eapply list_elem_of_lookup_2 | done |].
  rewrite Hfind. apply list_find_Some in Hfind as (Hj & Hkey & Hmin).
  exists j, c'. repeat split; try done.
  - destruct (decide (j ≤ i)%nat) as [|Hgt]; [done|].
    exfalso. apply (Hmin i c Hi); [lia | done].
  - intros j' c'' Hlt Hj'. by apply (Hmin j' c'' Hj').
Qed.

Lemma first_call_with_the_key_answers_witness :
  ∃ (j : nat) c',
    [([course_1], tt); ([course_2], tt)] !! j = Some c' ∧ (j ≤ 1)%nat ∧
    key_of str_tuple str_no_kwargs c'
      = key_of str_tuple str_no_kwargs ([course_2], tt) ∧
    (∀ (j' : nat) c'', (j' < j)%nat →
       [([course_1], tt); ([course_2], tt)] !! j' = Some c'' →
       key_of str_tuple str_no_kwargs c''
         ≠ key_of str_tuple str_no_kwargs ([course_2], tt)) ∧
    (call_all str_tuple str_no_kwargs total
       [([course_1], tt); ([course_2], tt)] memoize).1 !! 1%nat
      = Some (total c'.1 c'.2).
Proof.
  apply (first_call_with_the_key_answers str_tuple str_no_kwargs total
           [([course_1], tt); ([course_2], tt)] 1%nat ([course_2], tt)).
  reflexivity.
Defined.

(** X7.  When no two calls of a sequence share their [str(args) +
    str(kwargs)] unless they are the same call, memoization cannot be
    observed: every call returns what the function itself returns. *)
Theorem memoizer_transparent {Args Kwargs R : Type}
    (str_args : Args → string) (str_kwargs : Kwargs → string)
    (obj : Args → Kwargs → R) (calls : list (Args * Kwargs)) :
  let key := key_of str_args str_kwargs in
  (∀ c c', c ∈ calls → c' ∈ calls → key c = key c' → c = c') →
  (call_all str_args str_kwargs obj calls memoize).1
    = (λ c, obj c.1 c.2) <$> calls.
Proof.
  cbv zeta. intros Hinj. apply list_eq; intros i.
  rewrite list_lookup_fmap.
  destruct (calls !! i) as [c|] eqn:Hi; cbn [fmap option_fmap option_map].
  - rewrite (call_all_lookup _ _ _ _ _ _ _ Hi). unfold answer, memoize.
    cbn [cache]. rewrite lookup_empty.
    destruct (list_find _ calls) as [[j c']|] eqn:Hfind; [|done].
    apply list_find_Some in Hfind as (Hj & Hkey & _).
    rewrite (Hinj c' c); [done | | | done].
    + by eapply list_elem_of_lookup_2.
    + by eapply list_elem_of_lookup_2.
  - apply lookup_ge_None. rewrite call_all_length.
    by apply lookup_ge_None.
Qed.

Lemma memoizer_transparent_witness :
  (call_all str_tuple str_no_kwargs total
     [([], tt); ([course_2], tt); ([], tt)] memoize).1 = [0; 2; 0].
Proof.
  rewrite memoizer_transparent; [done|].
  intros c c' Hc Hc'.
  repeat (apply elem_of_cons in Hc as [->|Hc]);
    repeat (apply elem_of_cons in Hc' as [->|Hc']);
    try (by apply elem_of_nil in Hc); try (by apply elem_of_nil in Hc');
    vm_compute; congruence.
Defined.

(** X8.  Over a sequence of calls on a fresh wrapper the function is invoked
    once for each distinct [str(args) + str(kwargs)] and never twice for
    the same one: the invocations are a subsequence of the calls with
    pairwise different keys, they cover the keys of all the calls, and the
    cache ends with one entry for each of them. *)
Theorem one_invocation_per_key {Args Kwargs R : Type}
    (str_args : Args → string) (str_kwargs : Kwargs → string)
    (obj : Args → Kwargs → R) (calls : list (Args * Kwargs)) :
  let key := key_of str_args str_kwargs in
  let st := (call_all str_args str_kwargs obj calls memoize).2 in
  sublist (invocations st) calls ∧
  NoDup (key <$> invocations st) ∧
  (∀ c, c ∈ calls → key c ∈ key <$> invocations st) ∧
  size (cache st) = length (invocations st).
Proof.
  cbv zeta.
  destruct (call_all_invocations str_args str_kwargs obj calls memoize)
    as (Hd1 & Hd2 & Hnd & new & Hinv & Hsub); [done | constructor |].
  cbn [memoize invocations cache app] in *.
  rewrite dom_empty_L, union_empty_l_L in Hd1.
  repeat split.
  - by rewrite Hinv.
  - done.
  - intros c Hc.
    assert (Hk : key_of str_args str_kwargs c
                   ∈ (list_to_set (key_of str_args str_kwargs <$> calls)
                        : gset string))
      by (by apply elem_of_list_to_set, list_elem_of_fmap_2).
    rewrite <- Hd1, Hd2 in Hk. by apply elem_of_list_to_set in Hk.
  - rewrite <- size_dom, Hd2, size_list_to_set by done.
    by rewrite length_fmap.
Qed.
End MemoMore.

(** ** More about the retrying shell executor *)

Module ShellMore.
Import Shell Obs ObsMore ShellSpec Inputs.

Lemma for_each_log lines w :
  for_each lines (λ line, log (Info line)) w
    = (emits (map (λ line, Log (Info line)) lines) w, Ok tt).
Proof.
  revert w. induction lines as [|l lines IH]; intros w.
  - unfold emits. cbn. rewrite app_nil_r. by destruct w.
  - cbn [for_each]. rewrite bind_unfold. unfold log at 1. rewrite IH.
    unfold emits, emit. cbn. by rewrite <- app_assoc.
Qed.

Lemma alter_close_insert (h : handle) (f : pyfile) (fs : gmap handle pyfile) :
  alter close_file h (<[h := f]> fs) = <[h := close_file f]> fs.
Proof.
  apply map_eq; intros j. destruct (decide (h = j)) as [->|Hne].
  - by rewrite lookup_alter_eq, !lookup_insert_eq.
  - by rewrite lookup_alter_ne, !lookup_insert_ne.
Qed.

Lemma alter_close_lookup (h : handle) (f : pyfile) (fs : gmap handle pyfile) :
  fs !! h = Some f → alter close_file h fs = <[h := close_file f]> fs.
Proof.
  intros Hf. apply map_eq; intros j. destruct (decide (h = j)) as [<-|Hne].
  - by rewrite lookup_alter_eq, lookup_insert_eq, Hf.
  - by rewrite lookup_alter_ne, lookup_insert_ne.
Qed.

(** One [with] block of the failure handler, on an open file. *)
Lemma with_file_dump h w f :
  files w !! h = Some f → closed f = false →
  with_file h dump w =
    if readable f
    then ({| files := <[h := close_file (read_to_end f)]> (files w);
             executions := executions w;
             trace := trace w ++ map (λ line, Log (Info line))
                                     (drop (offset f) (content f)) |},
          Ok tt)
    else (set_files (<[h := close_file f]> (files w)) w, Raise IOError).
Proof.
  intros Hf Hc. unfold with_file, dump. rewrite Hf, Hc, bind_unfold.
  unfold readlines. rewrite Hf, Hc.
  destruct (readable f); cbn [negb].
  - rewrite for_each_log. unfold emits, set_files. cbn [files executions trace].
    by rewrite alter_close_insert.
  - by rewrite (alter_close_lookup _ f).
Qed.

Lemma with_file_closed {A} h (body : handle → M A) w :
  closed_in w h → with_file h body w = (w, Raise ValueError).
Proof. intros (f & Hf & Hc). unfold with_file. by rewrite Hf, Hc. Qed.

Lemma bind_log {B} r (k : unit → M B) w :
  (log r ≫= k) w = k tt (emit (Log r) w).
Proof. reflexivity. Qed.

Lemma bind_ret {A B} (a : A) (k : A → M B) w : (ret a ≫= k) w = k a w.
Proof. reflexivity. Qed.

(** The failure handler up to its first [with] block. *)
Lemma log_failure_unfold attempt max_tries args w o :
  args !! "stdout" = Some o →
  log_failure attempt max_tries args w =
    (with_file o dump ;;
     log (Info "stderr_file:::") ;;
     e ← subscript args "stderr" ;
     with_file e dump)
      (emits (failure_header attempt max_tries o) w).
Proof.
  intros Ho. unfold log_failure.
  assert (Hs : subscript args "stdout" = ret o)
    by (unfold subscript; by rewrite Ho).
  rewrite Hs.
  repeat first [rewrite bind_log | rewrite bind_ret | progress cbv beta].
  unfold emits, failure_header, emit. cbn [files executions trace].
  by rewrite <- !app_assoc.
Qed.

Lemma open_in_child_writes sink ls w h :
  open_in w h → open_in (child_writes sink ls w) h.
Proof.
  intros (f & Hf & Hc). destruct sink as [h'|]; [|by exists f].
  unfold open_in, child_writes, set_files. cbn [files].
  destruct (decide (h' = h)) as [->|Hne].
  - exists (write_file ls f). by rewrite lookup_alter_eq, Hf.
  - exists f. by rewrite lookup_alter_ne.
Qed.

(** With usable sinks [check_call] runs the command; the world after. *)
Lemma check_call_runs cmd args w :
  (∀ h, args !! "stdout" = Some h → open_in w h) →
  (∀ h, args !! "stderr" = Some h → open_in w h) →
  let p := cmd (executions w) in
  check_call cmd args w =
    ({| files := files (child_writes (args !! "stderr") (err p)
                          (child_writes (args !! "stdout") (out p) w));
        executions := S (executions w);
        trace := trace w ++ [Exec (exit_status p)] |},
     if exit_status p =? 0 then Ok 0
     else Raise (CalledProcessError (exit_status p))).
Proof.
  intros Hout Herr. cbv zeta. unfold check_call. rewrite bind_unfold.
  assert (Hsink : ∀ k, (∀ h, args !! k = Some h → open_in w h) →
    (match args !! k with Some h => fileno h | None => ret tt end) w
      = (w, Ok tt)).
  { intros k Hk. destruct (args !! k) as [h|]; [|done].
    destruct (Hk h eq_refl) as (f & Hf & Hc).
    unfold fileno. by rewrite Hf, Hc. }
  rewrite (Hsink "stdout" Hout). cbv beta iota. rewrite bind_unfold.
  rewrite (Hsink "stderr" Herr). cbv beta iota. rewrite bind_unfold.
  unfold run. cbv zeta beta iota.
  by destruct (exit_status (cmd (executions w)) =? 0).
Qed.

(** What [_retry_execute_shell] does once the command has failed. *)
Lemma retry_after_failure cmd attempt max_tries args w w1 rc :
  check_call cmd args w = (w1, Raise (CalledProcessError rc)) →
  _retry_execute_shell cmd attempt max_tries args w =
    match log_failure attempt max_tries args w1 with
    | (w2, Raise e) => (w2, Raise e)
    | (w2, Ok _) =>
        ((back_off (attempt + 1) w2).1,
         if decide (attempt + 1 >= max_tries)
         then Raise (CalledProcessError rc) else Raise ValueError)
    end.
Proof.
  intros Hcc. rewrite retry_attempt_once. unfold attempt_once.
  rewrite Hcc, bind_unfold.
  destruct (log_failure attempt max_tries args w1) as [w2 [u|e]]; [|done].
  rewrite back_off_unfold. cbn [fst].
  by destruct (decide (attempt + 1 >= max_tries)).
Qed.

(** The failure handler on two different open, readable sinks: of each
    sink it logs the lines after the current position, and it closes
    both. *)
Lemma log_failure_two_sinks attempt max_tries args w o e fo fe :
  args !! "stdout" = Some o → args !! "stderr" = Some e → o ≠ e →
  files w !! o = Some fo → files w !! e = Some fe →
  closed fo = false → closed fe = false →
  readable fo = true → readable fe = true →
  log_failure attempt max_tries args w =
    ({| files := <[e := close_file (read_to_end fe)]>
                   (<[o := close_file (read_to_end fo)]> (files w));
        executions := executions w;
        trace := trace w ++ failure_header attempt max_tries o
                 ++ map (λ line, Log (Info line)) (drop (offset fo) (content fo))
                 ++ [Log (Info "stderr_file:::")]
                 ++ map (λ line, Log (Info line))
                        (drop (offset fe) (content fe)) |},
     Ok tt).
Proof.
  intros Ho He Hne Hfo Hfe Hco Hce Hro Hre.
  rewrite (log_failure_unfold _ _ _ _ o Ho), bind_unfold.
  rewrite (with_file_dump o _ fo) by done. rewrite Hro.
  rewrite bind_log. unfold subscript. rewrite He, bind_ret.
  rewrite (with_file_dump e _ fe);
    [| by cbn [emit files]; rewrite lookup_insert_ne | done].
  rewrite Hre. unfold emit, emits. cbn [files executions trace].
  by rewrite <- !app_assoc.
Qed.

Lemma at_end_written ls f :
  at_end f →
  drop (offset (write_file ls f)) (content (write_file ls f)) = [].
Proof.
  unfold at_end. intros Hend. cbn [write_file offset content].
  apply drop_ge. rewrite Hend, take_ge, drop_ge by lia.
  rewrite !length_app. cbn. lia.
Qed.

Lemma usable_args kw w :
  sinks_usable kw w →
  (∀ h, additional_args_of kw !! "stdout" = Some h → open_in w h) ∧
  (∀ h, additional_args_of kw !! "stderr" = Some h → open_in w h).
Proof.
  intros [Hout Herr]. destruct (lookup_additional_args kw) as [Hlo Hle].
  split; intros h; [rewrite Hlo | rewrite Hle]; auto.
Qed.

(** X9.  A command that exits with status 0 on its first run makes
    [execute_shell] return 0 at once, whatever [max_tries] is: the run is
    the only event, nothing is logged, no sleep is made, and the sinks are
    still open for the caller. *)
Theorem success_returns_at_once cmd kw w :
  sinks_usable kw w → exit_status (cmd (executions w)) = 0 →
  let r := execute_shell cmd kw w in
  r.2 = Ok 0 ∧ emitted w r.1 = [Exec 0] ∧ sinks_usable kw r.1.
Proof.
  intros Hus Hrc. cbv zeta. pose proof Hus as [Hout Herr].
  destruct (usable_args kw w Hus) as [Hao Hae].
  rewrite execute_shell_unfold, retry_attempt_once. unfold attempt_once.
  rewrite (check_call_runs _ _ _ Hao Hae), Hrc. cbn [Z.eqb fst snd].
  split; [done|]. split; [by apply emitted_app|].
  split; intros h Hh; unfold open_in; cbn [files];
    apply open_in_child_writes, open_in_child_writes; auto.
Qed.

Lemma success_returns_at_once_witness :
  (execute_shell succeeds (both_sinks 7) w0).2 = Ok 0.
Proof.
  refine (proj1 (success_returns_at_once succeeds (both_sinks 7) w0 _ _)).
  - split; intros h [= <-]; eexists; (split; [by vm_compute | reflexivity]).
  - reflexivity.
Defined.

(** X10.  Whatever the command, the keyword arguments and the state of the
    sinks, one call of [execute_shell] runs the command at most once and
    sleeps at most once, and then for 20 seconds: [max_tries] never buys a
    second run. *)
Theorem one_run_and_one_sleep_at_most cmd kw w :
  let r := execute_shell cmd kw w in
  (executions r.1 ≤ S (executions w))%nat ∧
  (length (execs (emitted w r.1)) ≤ 1)%nat ∧
  (sleeps (emitted w r.1) = [] ∨ sleeps (emitted w r.1) = [20]).
Proof.
  cbv zeta. rewrite execute_shell_unfold.
  destruct (retry_cases cmd 1 (default 1 (max_tries kw))
                        (additional_args_of kw) w)
    as [[_ Hr]|[(Hrc & Hres & He & Ht)|[(Hrc & He & e & logs & Hres & _ & Ht & Hd)
                   |(Hrc & He & Hres & _ & logs & Hd & Ht)]]].
  - assert (Hw : (_retry_execute_shell cmd 1
        (default 1 (max_tries kw)) (additional_args_of kw) w).1 = w)
      by (destruct Hr as [Hr|Hr]; by rewrite Hr).
    rewrite Hw, emitted_same. cbn. repeat split; auto; lia.
  - rewrite He, (emitted_app _ _ _ Ht). cbn. repeat split; auto; lia.
  - rewrite He, (emitted_app _ _ _ Ht).
    rewrite <- (app_nil_r (map Log logs)), execs_attempt, sleeps_attempt.
    cbn. repeat split; auto; lia.
  - rewrite He, (emitted_app _ _ _ Ht), execs_attempt, sleeps_attempt.
    cbn. repeat split; auto; lia.
Qed.

(** X11.  [execute_shell] returns normally only when the first run of the
    command exits with status 0; the value returned is then 0 and the run
    is all that happened.  After a failed run it always raises. *)
Theorem returns_only_on_first_success cmd kw w v :
  let r := execute_shell cmd kw w in
  r.2 = Ok v →
  v = 0 ∧ exit_status (cmd (executions w)) = 0 ∧ emitted w r.1 = [Exec 0].
Proof.
  cbv zeta. rewrite execute_shell_unfold. intros Hok.
  destruct (retry_cases cmd 1 (default 1 (max_tries kw))
                        (additional_args_of kw) w)
    as [[_ Hr]|[(Hrc & Hres & He & Ht)|[(Hrc & He & e & logs & Hres & _)
                   |(Hrc & He & Hres & _)]]].
  - destruct Hr as [Hr|Hr]; rewrite Hr in Hok; discriminate Hok.
  - rewrite Hres in Hok. injection Hok as <-.
    split; [done|]. split; [done|]. by apply emitted_app.
  - rewrite Hres in Hok. discriminate Hok.
  - rewrite Hres in Hok.
    destruct (decide (1 + 1 >= default 1 (max_tries kw))); discriminate Hok.
Qed.

Lemma returns_only_on_first_success_witness :
  emitted w0 (execute_shell succeeds no_kwargs w0).1 = [Exec 0].
Proof.
  refine (proj2 (proj2 (returns_only_on_first_success
                          succeeds no_kwargs w0 0 _))).
  by vm_compute.
Defined.

(** X12.  A sink that is already closed when [execute_shell] is called makes
    the call raise [ValueError] before anything is run or logged: the
    world is left as it was. *)
Theorem closed_sink_is_refused cmd kw w :
  (∃ h, stdout_file kw = Some h ∧ closed_in w h) ∨
  ((∀ h, stdout_file kw = Some h → open_in w h) ∧
   ∃ h, stderr_file kw = Some h ∧ closed_in w h) →
  execute_shell cmd kw w = (w, Raise ValueError).
Proof.
  destruct (lookup_additional_args kw) as [Hlo Hle].
  rewrite execute_shell_unfold.
  intros [(h & Hh & Hc)|(Hout & h & Hh & f & Hf & Hc)].
  - apply (retry_closed_stdout _ _ _ _ _ h); [by rewrite Hlo | done].
  - simp _retry_execute_shell.
    assert (Hcc : check_call cmd (additional_args_of kw) w
                  = (w, Raise ValueError)).
    { unfold check_call. rewrite bind_unfold, Hlo, Hle, Hh.
      assert (Hfirst :
        (match stdout_file kw with Some h0 => fileno h0 | None => ret tt end) w
          = (w, Ok tt)).
      { destruct (stdout_file kw) as [h0|]; [|done].
        destruct (Hout h0 eq_refl) as (f0 & Hf0 & Hc0).
        unfold fileno. by rewrite Hf0, Hc0. }
      rewrite Hfirst. cbv beta iota. rewrite bind_unfold.
      unfold fileno. by rewrite Hf, Hc. }
    rewrite Hcc. by simp _retry_execute_shell.
Qed.

Lemma closed_sink_is_refused_witness :
  let w := (execute_shell always_fails (both_sinks 1) w0).1 in
  execute_shell always_fails (both_sinks 1) w = (w, Raise ValueError).
Proof.
  apply closed_sink_is_refused. left. exists 0%nat.
  split; [reflexivity|]. eexists. split; by vm_compute.
Defined.

Lemma log_failure_Ok_closes_both attempt max_tries args w w' u :
  log_failure attempt max_tries args w = (w', Ok u) →
  ∃ o e, args !! "stdout" = Some o ∧ args !! "stderr" = Some e ∧
         closed_in w' o ∧ closed_in w' e.
Proof.
  intros Hrun.
  destruct (log_failure_Ok_closes _ _ _ _ _ _ Hrun) as (o & Ho & Hclosed).
  rewrite (log_failure_unfold _ _ _ _ o Ho) in Hrun.
  apply bind_Ok in Hrun as (wa & ? & _ & Hrun).
  apply bind_Ok in Hrun as (wb & ? & _ & Hrun).
  apply bind_Ok in Hrun as (wc & e & He & Hrun).
  apply subscript_Ok in He as [He ->].
  apply with_file_Ok_closes in Hrun; [|intros fi; apply quiet_dump].
  by exists o, e.
Qed.

(** X13.  [execute_shell] raises the [CalledProcessError] of the command only
    when [max_tries] is at most 2 and both sinks were supplied, and it
    then leaves both of them closed.  With [max_tries] of 3 or more a
    failing command is never reported as such. *)
Theorem process_failure_needs_small_budget cmd kw w rc :
  let r := execute_shell cmd kw w in
  r.2 = Raise (CalledProcessError rc) →
  default 1 (max_tries kw) <= 2 ∧
  ∃ o e, stdout_file kw = Some o ∧ stderr_file kw = Some e ∧
         closed_in r.1 o ∧ closed_in r.1 e.
Proof.
  cbv zeta. destruct (lookup_additional_args kw) as [Hlo Hle].
  rewrite execute_shell_unfold, retry_attempt_once. unfold attempt_once.
  destruct (check_call cmd (additional_args_of kw) w) as [w1 [v|e]];
    [done|].
  destruct e as [rc'| | | |]; try done. rewrite bind_unfold.
  destruct (quiet_log_failure 1 (default 1 (max_tries kw))
              (additional_args_of kw) w1) as [_ Hne].
  destruct (log_failure 1 (default 1 (max_tries kw))
              (additional_args_of kw) w1) as [w2 [u|e]] eqn:Hlog;
    cbn [snd] in *.
  - rewrite back_off_unfold.
    apply log_failure_Ok_closes_both in Hlog
      as (o & e & Ho & He & Hco & Hce).
    destruct (decide (1 + 1 >= default 1 (max_tries kw))); [|done].
    intros _. split; [lia|]. exists o, e.
    rewrite <- Hlo, <- Hle. by repeat split.
  - intros [= ->]. by destruct (Hne rc).
Qed.

Lemma process_failure_needs_small_budget_witness :
  (2 <= 2) ∧
  ∃ o e, stdout_file (both_sinks 2) = Some o ∧
         stderr_file (both_sinks 2) = Some e ∧
         closed_in (execute_shell always_fails (both_sinks 2) w0).1 o ∧
         closed_in (execute_shell always_fails (both_sinks 2) w0).1 e.
Proof.
  apply (process_failure_needs_small_budget always_fails (both_sinks 2) w0 1).
  by vm_compute.
Defined.

(** X14.  The same file object given for both streams: when the command fails,
    the caller gets [ValueError], not the failure of the command, because
    the second [with] block enters the file that the first one closed.
    The command has run once, no sleep is made and the file is closed. *)
Theorem one_file_for_both_streams cmd kw w h f :
  stdout_file kw = Some h → stderr_file kw = Some h →
  files w !! h = Some f → closed f = false → readable f = true →
  exit_status (cmd (executions w)) ≠ 0 →
  let r := execute_shell cmd kw w in
  r.2 = Raise ValueError ∧ closed_in r.1 h ∧
  execs (emitted w r.1) = [exit_status (cmd (executions w))] ∧
  sleeps (emitted w r.1) = [].
Proof.
  intros Hso Hse Hf Hc Hr Hrc. cbv zeta.
  destruct (lookup_additional_args kw) as [Hlo Hle].
  rewrite Hso in Hlo. rewrite Hse in Hle.
  assert (Hcc := check_call_runs cmd (additional_args_of kw) w).
  cbv zeta in Hcc. apply Z.eqb_neq in Hrc as Hrcb.
  rewrite Hlo, Hle, Hrcb in Hcc.
  specialize (Hcc ltac:(intros ? [= <-]; by exists f)
                  ltac:(intros ? [= <-]; by exists f)).
  cbn [child_writes set_files files] in Hcc.
  set (w1 := {| files := alter (write_file (err (cmd (executions w)))) h
                  (alter (write_file (out (cmd (executions w)))) h (files w));
                executions := S (executions w);
                trace := trace w ++ [Exec (exit_status (cmd (executions w)))] |})
    in Hcc.
  set (n := default 1 (max_tries kw)).
  set (f1 := write_file (err (cmd (executions w)))
               (write_file (out (cmd (executions w))) f)).
  assert (Hlog : ∃ w2, log_failure 1 n (additional_args_of kw) w1
                         = (w2, Raise ValueError) ∧ closed_in w2 h).
  { rewrite (log_failure_unfold _ _ _ _ h Hlo), bind_unfold.
    rewrite (with_file_dump h _ f1);
      [| by cbn [emits files w1]; rewrite !lookup_alter_eq, Hf | done].
    change (readable f1) with (readable f). rewrite Hr, bind_log.
    unfold subscript. rewrite Hle, bind_ret.
    eexists. split.
    - apply with_file_closed. eexists.
      cbn [emit files]. by rewrite lookup_insert_eq.
    - eexists. cbn [emit files]. by rewrite lookup_insert_eq. }
  destruct Hlog as (w2 & Hlog & Hclosed).
  destruct (quiet_log_failure 1 n (additional_args_of kw) w1)
    as [(He2 & (logs & Ht2 & _) & _ & _) _].
  rewrite Hlog in He2, Ht2. cbn [fst] in He2, Ht2.
  rewrite execute_shell_unfold.
  rewrite (retry_after_failure _ _ _ _ _ _ _ Hcc). fold n. rewrite Hlog.
  cbn [fst snd]. split; [done|]. split; [done|].
  rewrite (emitted_app w w2 (Exec (exit_status (cmd (executions w)))
                               :: map Log logs ++ []))
    by (rewrite Ht2, app_nil_r; cbn [w1 trace]; by rewrite <- app_assoc).
  by rewrite execs_attempt, sleeps_attempt.
Qed.

Lemma one_file_for_both_streams_witness :
  (execute_shell always_fails
     {| stdout_file := Some 0%nat; stderr_file := Some 0%nat;
        max_tries := None |} w0).2 = Raise ValueError.
Proof.
  refine (proj1 (one_file_for_both_streams always_fails _ w0 0%nat
                   fresh_file _ _ _ _ _ _)); try reflexivity.
  discriminate.
Defined.

(** X15.  A sink that is open for writing only: when the command fails, reading
    the sink back raises [IOError], which is what the caller gets instead
    of the failure of the command; the sink is closed on the way out and
    no sleep is made. *)
Theorem write_only_sink_masks_the_failure cmd kw w o f :
  stdout_file kw = Some o →
  files w !! o = Some f → closed f = false → readable f = false →
  (∀ h, stderr_file kw = Some h → open_in w h) →
  exit_status (cmd (executions w)) ≠ 0 →
  let r := execute_shell cmd kw w in
  r.2 = Raise IOError ∧ closed_in r.1 o ∧
  execs (emitted w r.1) = [exit_status (cmd (executions w))] ∧
  sleeps (emitted w r.1) = [].
Proof.
  intros Hso Hf Hc Hr Herr Hrc. cbv zeta.
  destruct (lookup_additional_args kw) as [Hlo Hle].
  rewrite Hso in Hlo.
  assert (Hcc := check_call_runs cmd (additional_args_of kw) w).
  cbv zeta in Hcc. apply Z.eqb_neq in Hrc as Hrcb.
  rewrite Hlo, Hle, Hrcb in Hcc.
  specialize (Hcc ltac:(intros ? [= <-]; by exists f) Herr).
  set (w1 := {| files := _; executions := _; trace := _ |}) in Hcc.
  set (n := default 1 (max_tries kw)).
  assert (Hopen1 : ∃ f1, files w1 !! o = Some f1 ∧ closed f1 = false
                         ∧ readable f1 = false).
  { cbn [w1 files]. destruct (stderr_file kw) as [e|];
      cbn [child_writes set_files files].
    - destruct (decide (e = o)) as [->|Hne].
      + eexists. rewrite !lookup_alter_eq, Hf. by split.
      + eexists. rewrite lookup_alter_ne, lookup_alter_eq, Hf by done.
        by split.
    - eexists. rewrite lookup_alter_eq, Hf. by split. }
  destruct Hopen1 as (f1 & Hf1 & Hc1 & Hr1).
  assert (Hlog : ∃ w2, log_failure 1 n (additional_args_of kw) w1
                         = (w2, Raise IOError) ∧ closed_in w2 o).
  { rewrite (log_failure_unfold _ _ _ _ o Hlo), bind_unfold.
    rewrite (with_file_dump o _ f1) by done. rewrite Hr1.
    eexists. split; [done|]. eexists.
    cbn [set_files emits files]. by rewrite lookup_insert_eq. }
  destruct Hlog as (w2 & Hlog & Hclosed).
  destruct (quiet_log_failure 1 n (additional_args_of kw) w1)
    as [(He2 & (logs & Ht2 & _) & _ & _) _].
  rewrite Hlog in He2, Ht2. cbn [fst] in He2, Ht2.
  rewrite execute_shell_unfold.
  rewrite (retry_after_failure _ _ _ _ _ _ _ Hcc). fold n. rewrite Hlog.
  cbn [fst snd]. split; [done|]. split; [done|].
  rewrite (emitted_app w w2 (Exec (exit_status (cmd (executions w)))
                               :: map Log logs ++ []))
    by (rewrite Ht2, app_nil_r; cbn [w1 trace]; by rewrite <- app_assoc).
  by rewrite execs_attempt, sleeps_attempt.
Qed.

Lemma write_only_sink_masks_the_failure_witness :
  let w := {| files := {[ 0%nat := {| closed := false; readable := false;
                                     content := []; offset := 0 |} ]};
              executions := 0; trace := [] |} in
  (execute_shell always_fails
     {| stdout_file := Some 0%nat; stderr_file := None;
        max_tries := None |} w).2 = Raise IOError.
Proof.
  refine (proj1 (write_only_sink_masks_the_failure always_fails _ _ 0%nat
                   _ _ _ _ _ _ _)); try reflexivity; try done.
Defined.

(** X16.  The diagnostics never show what the failed command wrote.  With two
    different open, readable sinks positioned at their end, as files are
    that are only written to, the child leaves each sink at its new end
    and lines 167-173 read from there: between the run and the back-off
    the log holds the fixed records only, and no line of the output. *)
Theorem diagnostics_show_no_output cmd kw w o e fo fe :
  stdout_file kw = Some o → stderr_file kw = Some e → o ≠ e →
  files w !! o = Some fo → files w !! e = Some fe →
  closed fo = false → closed fe = false →
  readable fo = true → readable fe = true →
  at_end fo → at_end fe →
  exit_status (cmd (executions w)) ≠ 0 →
  let r := execute_shell cmd kw w in
  emitted w r.1 =
    Exec (exit_status (cmd (executions w)))
    :: failure_header 1 (default 1 (max_tries kw)) o
    ++ [Log (Info "stderr_file:::");
        Log (Waiting 20 2); Sleep 20; Log (Retrying 2)].
Proof.
  intros Hso Hse Hne Hfo Hfe Hco Hce Hro Hre Heo Hee Hrc. cbv zeta.
  destruct (lookup_additional_args kw) as [Hlo Hle].
  rewrite Hso in Hlo. rewrite Hse in Hle.
  assert (Hcc := check_call_runs cmd (additional_args_of kw) w).
  cbv zeta in Hcc. apply Z.eqb_neq in Hrc as Hrcb.
  rewrite Hlo, Hle, Hrcb in Hcc.
  specialize (Hcc ltac:(intros ? [= <-]; by exists fo)
                  ltac:(intros ? [= <-]; by exists fe)).
  cbn [child_writes set_files files] in Hcc.
  set (w1 := {| files := _; executions := _; trace := _ |}) in Hcc.
  set (n := default 1 (max_tries kw)).
  rewrite execute_shell_unfold.
  rewrite (retry_after_failure _ _ _ _ _ _ _ Hcc). fold n.
  rewrite (log_failure_two_sinks 1 n _ w1 o e
             (write_file (out (cmd (executions w))) fo)
             (write_file (err (cmd (executions w))) fe)); try done.
  - rewrite back_off_unfold. cbn [fst files executions trace].
    rewrite !at_end_written by done.
    apply emitted_app. cbn [w1 trace map app].
    rewrite <- !app_assoc. reflexivity.
  - cbn [w1 files].
    by rewrite lookup_alter_ne, lookup_alter_eq, Hfo by done.
  - cbn [w1 files].
    by rewrite lookup_alter_eq, lookup_alter_ne, Hfe by done.
Qed.

Lemma diagnostics_show_no_output_witness :
  emitted w0 (execute_shell always_fails (both_sinks 2) w0).1 =
    Exec 1 :: failure_header 1 2 0%nat
    ++ [Log (Info "stderr_file:::");
        Log (Waiting 20 2); Sleep 20; Log (Retrying 2)].
Proof.
  apply (diagnostics_show_no_output always_fails (both_sinks 2) w0
           0%nat 1%nat fresh_file fresh_file); try reflexivity; try done.
Defined.

Lemma successful_run cmd kw w :
  sinks_usable kw w → exit_status (cmd (executions w)) = 0 →
  (execute_shell cmd kw w).2 = Ok 0.
Proof.
  intros Hus Hrc. destruct (usable_args kw w Hus) as [Hao Hae].
  rewrite execute_shell_unfold, retry_attempt_once. unfold attempt_once.
  by rewrite (check_call_runs _ _ _ Hao Hae), Hrc.
Qed.

(** A failed run with two different open, readable sinks ends with both
    sinks closed, whichever exception the call raises. *)
Lemma failed_run_closes cmd kw w o e fo fe :
  stdout_file kw = Some o → stderr_file kw = Some e → o ≠ e →
  files w !! o = Some fo → files w !! e = Some fe →
  closed fo = false → closed fe = false →
  readable fo = true → readable fe = true →
  exit_status (cmd (executions w)) ≠ 0 →
  ∃ w' exc, execute_shell cmd kw w = (w', Raise exc) ∧
            closed_in w' o ∧ closed_in w' e.
Proof.
  intros Hso Hse Hne Hfo Hfe Hco Hce Hro Hre Hrc.
  destruct (lookup_additional_args kw) as [Hlo Hle].
  rewrite Hso in Hlo. rewrite Hse in Hle.
  assert (Hcc := check_call_runs cmd (additional_args_of kw) w).
  cbv zeta in Hcc. apply Z.eqb_neq in Hrc as Hrcb.
  rewrite Hlo, Hle, Hrcb in Hcc.
  specialize (Hcc ltac:(intros ? [= <-]; by exists fo)
                  ltac:(intros ? [= <-]; by exists fe)).
  cbn [child_writes set_files files] in Hcc.
  set (w1 := {| files := _; executions := _; trace := _ |}) in Hcc.
  rewrite execute_shell_unfold.
  rewrite (retry_after_failure _ _ _ _ _ _ _ Hcc).
  rewrite (log_failure_two_sinks 1 _ _ w1 o e
             (write_file (out (cmd (executions w))) fo)
             (write_file (err (cmd (executions w))) fe)); try done.
  - rewrite back_off_unfold. cbn [fst].
    destruct (decide (1 + 1 >= default 1 (max_tries kw)));
      (eexists _, _; split; [reflexivity|]);
      split; eexists; cbn [files].
    + by rewrite lookup_insert_ne, lookup_insert_eq.
    + by rewrite lookup_insert_eq.
    + by rewrite lookup_insert_ne, lookup_insert_eq.
    + by rewrite lookup_insert_eq.
  - cbn [w1 files].
    by rewrite lookup_alter_ne, lookup_alter_eq, Hfo by done.
  - cbn [w1 files].
    by rewrite lookup_alter_eq, lookup_alter_ne, Hfe by done.
Qed.
End ShellMore.

(** ** Logging the captured streams *)

Module StreamsSpec.
Import Shell Obs ObsMore ShellSpec ShellMore Streams Inputs.

Lemma flush_open h w f :
  files w !! h = Some f → closed f = false → flush h w = (w, Ok tt).
Proof. intros Hf Hc. unfold flush. by rewrite Hf, Hc. Qed.

Lemma log_file_contents_closed log_func h w :
  closed_in w h → log_file_contents log_func h w = (w, Raise ValueError).
Proof.
  intros (f & Hf & Hc). unfold log_file_contents. rewrite bind_unfold.
  unfold flush. by rewrite Hf, Hc.
Qed.

Lemma log_file_contents_open log_func h w f :
  files w !! h = Some f → closed f = false → readable f = true →
  log_file_contents log_func h w =
    for_each (content f) (λ line, log_func (strip line))
      (set_files (<[h := {| closed := false; readable := true;
                            content := content f;
                            offset := length (content f) |}]> (files w)) w).
Proof.
  intros Hf Hc Hr. unfold log_file_contents.
  rewrite bind_unfold, (flush_open h w f Hf Hc), bind_unfold.
  unfold seek. rewrite Hf, Hc, bind_unfold.
  unfold readlines, set_files. cbn [files executions trace].
  rewrite lookup_insert_eq. cbn [closed readable content offset].
  rewrite Hr. cbn [negb read_to_end closed readable content offset drop].
  by rewrite insert_insert_eq.
Qed.



(** The two streams are new file objects, different from each other,
    open, readable and empty when the body starts. *)
Lemma with_streams_new w :
  let '(o, e, w2) := with_streams w in
  o ≠ e ∧ files w !! o = None ∧ files w !! e = None ∧
  executions w2 = executions w ∧ trace w2 = trace w ∧
  files w2 !! o = Some {| closed := false; readable := true;
                          content := []; offset := 0 |} ∧
  files w2 !! e = Some {| closed := false; readable := true;
                          content := []; offset := 0 |} ∧
  ∀ h, h ≠ o → h ≠ e → files w2 !! h = files w !! h.
Proof.
  unfold with_streams, SpooledTemporaryFile, set_files.
  cbn [files executions trace].
  set (e := fresh (dom (files w))).
  set (fs1 := <[e := _]> (files w)).
  set (o := fresh (dom fs1)).
  assert (He : e ∉ dom (files w)) by apply is_fresh.
  assert (Ho : o ∉ dom fs1) by apply is_fresh.
  assert (Hne : o ≠ e).
  { intros Heq. apply Ho. rewrite Heq. unfold fs1.
    rewrite dom_insert_L. apply elem_of_union_l, elem_of_singleton_2.
    reflexivity. }
  assert (Hno : files w !! o = None).
  { apply not_elem_of_dom. intros Hin. apply Ho. unfold fs1.
    rewrite dom_insert_L. by apply elem_of_union_r. }
  repeat split; try done.
  - by apply not_elem_of_dom.
  - by rewrite lookup_insert_eq.
  - unfold fs1. by rewrite lookup_insert_ne, lookup_insert_eq.
  - intros h Hho Hhe. unfold fs1. by rewrite !lookup_insert_ne.
Qed.

Lemma with_file_open {A} h (body : handle → M A) w f :
  files w !! h = Some f → closed f = false →
  with_file h body w =
    (set_files (alter close_file h (files (body h w).1)) (body h w).1,
     (body h w).2).
Proof.
  intros Hf Hc. unfold with_file. rewrite Hf, Hc.
  by destruct (body h w).
Qed.

Lemma streams_unfold {A} warning name (body : handle → handle → M A) w :
  let '(o, e, w2) := with_streams w in
  logging_streams_on_failure warning name body w =
    let '(w3, r) :=
      try_except (body o e) (on_exception warning name o e) w2 in
    (set_files (alter close_file e (alter close_file o (files w3))) w3, r).
Proof.
  pose proof (with_streams_new w) as Hnew.
  unfold with_streams, logging_streams_on_failure in *.
  unfold SpooledTemporaryFile in *. cbv zeta in *.
  rewrite bind_unfold. cbv beta iota.
  set (e := fresh (dom (files w))) in *.
  set (w1 := set_files _ w) in *.
  set (o := fresh (dom (files w1))) in *.
  set (w2 := set_files _ w1) in *.
  destruct Hnew as (Hne & _ & _ & _ & _ & Hfo & Hfe & _).
  rewrite (with_file_open e _ w1 _ (lookup_insert_eq _ _ _) eq_refl).
  rewrite bind_unfold. cbv beta iota. fold o. fold w2.
  rewrite (with_file_open o _ w2 _ Hfo eq_refl).
  change (try_except (body o e) _ w2)
    with (try_except (body o e) (on_exception warning name o e) w2).
  by destruct (try_except (body o e) (on_exception warning name o e) w2).
Qed.

Lemma for_each_harmless {B} log_func (g : B → string) (xs : list B) w :
  harmless log_func →
  ∃ w', for_each xs (λ x, log_func (g x)) w = (w', Ok tt) ∧
        files w' = files w.
Proof.
  intros Hh. revert w. induction xs as [|x xs IH]; intros w.
  - by exists w.
  - cbn [for_each]. rewrite bind_unfold.
    destruct (Hh (g x) w) as (w1 & -> & Hf1).
    destruct (IH w1) as (w2 & -> & Hf2). exists w2. split; congruence.
Qed.

(** [log_file_contents] with a harmless logger, on an open readable
    file: it returns, and only the position of that file has changed. *)
Lemma log_file_contents_harmless log_func h w f :
  harmless log_func →
  files w !! h = Some f → closed f = false → readable f = true →
  ∃ w', log_file_contents log_func h w = (w', Ok tt) ∧
        files w' = <[h := {| closed := false; readable := true;
                             content := content f;
                             offset := length (content f) |}]> (files w).
Proof.
  intros Hh Hf Hc Hr.
  rewrite (log_file_contents_open log_func h w f Hf Hc Hr).
  destruct (for_each_harmless log_func strip (content f)
              (set_files (<[h := {| closed := false; readable := true;
                                    content := content f;
                                    offset := length (content f) |}]>
                            (files w)) w) Hh) as (w' & -> & Hfiles).
  by exists w'.
Qed.

(** X18.  When the body returns, its value is the value of the whole block,
    the [except] block is not entered, and the two streams are closed;
    nothing else about the world the body left is changed. *)
Theorem normal_exit_closes_the_streams {A} warning name
    (body : handle → handle → M A) w w3 (a : A) :
  let '(o, e, w2) := with_streams w in
  body o e w2 = (w3, Ok a) →
  let r := logging_streams_on_failure warning name body w in
  r.2 = Ok a ∧
  executions r.1 = executions w3 ∧ trace r.1 = trace w3 ∧
  files r.1 !! o = close_file <$> files w3 !! o ∧
  files r.1 !! e = close_file <$> files w3 !! e ∧
  ∀ h, h ≠ o → h ≠ e → files r.1 !! h = files w3 !! h.
Proof.
  pose proof (streams_unfold warning name body w) as Hun.
  pose proof (with_streams_new w) as Hnew.
  destruct (with_streams w) as [[o e] w2].
  destruct Hnew as (Hne & _). intros Hbody. cbv zeta.
  rewrite Hun. unfold try_except. rewrite Hbody.
  unfold set_files. cbn [fst snd files executions trace].
  repeat split.
  - by rewrite lookup_alter_ne, lookup_alter_eq.
  - by rewrite lookup_alter_eq, lookup_alter_ne.
  - intros h Hho Hhe. by rewrite !lookup_alter_ne.
Qed.

Lemma normal_exit_closes_the_streams_witness :
  (logging_streams_on_failure (λ s, log (Info s)) "job"
     (λ o e, execute_shell succeeds
               {| stdout_file := Some o; stderr_file := Some e;
                  max_tries := None |}) w0).2 = Ok 0.
Proof.
  pose proof (normal_exit_closes_the_streams (λ s, log (Info s)) "job"
     (λ o e, execute_shell succeeds
               {| stdout_file := Some o; stderr_file := Some e;
                  max_tries := None |}) w0) as Hthm.
  destruct (with_streams w0) as [[o e] w2] eqn:Hws.
  refine (proj1 (Hthm (execute_shell succeeds
                         {| stdout_file := Some o; stderr_file := Some e;
                            max_tries := None |} w2).1 0 _)).
  vm_compute in Hws. injection Hws as <- <- <-. by vm_compute.
Defined.

(** X19.  The two helpers do not compose.  When [execute_shell] is run with the
    streams of [logging_streams_on_failure] and the command fails, the
    block raises [ValueError], not the failure of the command:
    [execute_shell] has closed the streams, so [log_file_contents] fails
    on [flush] and the captured output is never logged.  When the command
    succeeds the block returns 0. *)
Theorem failure_in_the_streams_is_masked warning name cmd n w :
  harmless warning →
  let r := logging_streams_on_failure warning name
             (λ o e, execute_shell cmd
                       {| stdout_file := Some o; stderr_file := Some e;
                          max_tries := n |}) w in
  (exit_status (cmd (executions w)) = 0 → r.2 = Ok 0) ∧
  (exit_status (cmd (executions w)) ≠ 0 → r.2 = Raise ValueError).
Proof.
  intros Hh. cbv zeta.
  pose proof (streams_unfold warning name
    (λ o e, execute_shell cmd
              {| stdout_file := Some o; stderr_file := Some e;
                 max_tries := n |}) w) as Hun.
  pose proof (with_streams_new w) as Hnew.
  destruct (with_streams w) as [[o e] w2].
  destruct Hnew as (Hne & _ & _ & Hex & _ & Hfo & Hfe & _).
  rewrite Hun. unfold try_except. rewrite <- Hex. split; intros Hrc.
  - pose proof (successful_run cmd
      {| stdout_file := Some o; stderr_file := Some e; max_tries := n |}
      w2) as Hok.
    destruct (execute_shell cmd _ w2) as [w3 res]. cbn [snd] in *.
    rewrite Hok; [done | | done].
    split; intros h [= <-]; eexists; (split; [done | reflexivity]).
  - destruct (failed_run_closes cmd
      {| stdout_file := Some o; stderr_file := Some e; max_tries := n |}
      w2 o e _ _ eq_refl eq_refl Hne Hfo Hfe eq_refl eq_refl eq_refl eq_refl
      Hrc) as (w3 & exc & -> & (f & Hf & Hc) & _).
    unfold on_exception. rewrite bind_unfold.
    destruct (Hh ("Failed to execute " +:+ name)%string w3)
      as (wa & -> & Hfa).
    rewrite bind_unfold.
    destruct (Hh "Standard Output"%string wa) as (wb & -> & Hfb).
    rewrite bind_unfold, log_file_contents_closed; [done|].
    exists f. by rewrite Hfb, Hfa.
Qed.

Lemma failure_in_the_streams_is_masked_witness :
  (logging_streams_on_failure (λ s, log (Info s)) "job"
     (λ o e, execute_shell always_fails
               {| stdout_file := Some o; stderr_file := Some e;
                  max_tries := Some 1 |}) w0).2 = Raise ValueError.
Proof.
  refine (proj2 (failure_in_the_streams_is_masked (λ s, log (Info s)) "job"
                   always_fails (Some 1) w0 _) _).
  - intros msg w. by eexists.
  - discriminate.
Defined.

(** X20.  When the body raises and leaves the two streams open and readable,
    and the logger is harmless, the block raises the exception of the
    body again, after the [except] block has read both streams, and the
    two streams are closed. *)
Theorem body_failure_is_raised_again {A} warning name
    (body : handle → handle → M A) w w3 exc fo fe :
  harmless warning →
  let '(o, e, w2) := with_streams w in
  body o e w2 = (w3, Raise exc) →
  files w3 !! o = Some fo → files w3 !! e = Some fe →
  closed fo = false → closed fe = false →
  readable fo = true → readable fe = true →
  let r := logging_streams_on_failure warning name body w in
  r.2 = Raise exc ∧ closed_in r.1 o ∧ closed_in r.1 e.
Proof.
  intros Hh.
  pose proof (streams_unfold warning name body w) as Hun.
  pose proof (with_streams_new w) as Hnew.
  destruct (with_streams w) as [[o e] w2].
  destruct Hnew as (Hne & _).
  intros Hbody Hfo Hfe Hco Hce Hro Hre. cbv zeta.
  rewrite Hun. unfold try_except. rewrite Hbody.
  unfold on_exception. rewrite bind_unfold.
  destruct (Hh ("Failed to execute " +:+ name)%string w3)
    as (wa & -> & Hfa).
  rewrite bind_unfold.
  destruct (Hh "Standard Output"%string wa) as (wb & -> & Hfb).
  rewrite bind_unfold.
  destruct (log_file_contents_harmless warning o wb fo Hh)
    as (wc & -> & Hfc); [by rewrite Hfb, Hfa | done | done |].
  rewrite bind_unfold.
  destruct (Hh "Standard Error"%string wc) as (wd & -> & Hfd).
  rewrite bind_unfold.
  destruct (log_file_contents_harmless warning e wd fe Hh)
    as (we & -> & Hfe'); [| done | done |].
  { by rewrite Hfd, Hfc, lookup_insert_ne, Hfb, Hfa. }
  unfold raise, set_files. cbn [fst snd files].
  split; [done|]. unfold closed_in. cbn [files]. rewrite Hfe', Hfd, Hfc.
  split; eexists.
  - rewrite lookup_alter_ne, lookup_alter_eq, lookup_insert_ne,
      lookup_insert_eq by done. by split.
  - rewrite lookup_alter_eq, lookup_alter_ne, lookup_insert_eq by done.
    by split.
Qed.

Lemma body_failure_is_raised_again_witness :
  (logging_streams_on_failure (λ s, log (Info s)) "job"
     (λ _ _, raise (A := unit) (KeyError "k")) w0).2 = Raise (KeyError "k").
Proof.
  pose proof (body_failure_is_raised_again (λ s, log (Info s)) "job"
     (λ _ _, raise (A := unit) (KeyError "k")) w0) as Hthm.
  destruct (with_streams w0) as [[o e] w2] eqn:Hws.
  vm_compute in Hws. injection Hws as <- <- <-.
  refine (proj1 (Hthm _ (KeyError "k") _ _ _ eq_refl _ _ _ _ _ _));
    try reflexivity.
  intros msg w. by eexists.
Defined.
End StreamsSpec.

(** ** Temporary directories *)

Module TempDirSpec.
Import TempDir TempInputs.

Section facts.
Context {E : Type}.
Variable rmtree_error : string → gset string → option (E * gset string).

Local Abbreviation clean := (clean_dir rmtree_error).

Lemma below_refl d : below d d = true.
Proof. unfold below. by rewrite bool_decide_eq_true_2. Qed.

Lemma elem_of_rmtree d fs p :
  p ∈ (rmtree rmtree_error d fs).1 → p ∈ fs.
Proof.
  unfold rmtree. destruct (rmtree_error d fs) as [[e removed]|];
    cbn [fst]; rewrite elem_of_filter; by intros [_ ?].
Qed.

Lemma elem_of_rmtree_outside d fs p :
  below d p = false → (p ∈ (rmtree rmtree_error d fs).1 ↔ p ∈ fs).
Proof.
  intros Hp. unfold rmtree.
  destruct (rmtree_error d fs) as [[e removed]|];
    cbn [fst]; rewrite elem_of_filter; tauto.
Qed.

Lemma clean_dir_subseteq d s p : p ∈ paths (clean d s).1 → p ∈ paths s.
Proof.
  unfold clean_dir. destruct (decide (d ∈ paths s)); [|done].
  pose proof (elem_of_rmtree d (paths s) p) as Hsub.
  by destruct (rmtree rmtree_error d (paths s)) as [fs r].
Qed.

Lemma clean_dir_outside d s p :
  below d p = false → (p ∈ paths (clean d s).1 ↔ p ∈ paths s).
Proof.
  intros Hp. unfold clean_dir. destruct (decide (d ∈ paths s)); [|done].
  pose proof (elem_of_rmtree_outside d (paths s) p Hp) as Hout.
  by destruct (rmtree rmtree_error d (paths s)) as [fs r].
Qed.

(** [clean_dir] when [rmtree] succeeds or is not called. *)
Lemma clean_dir_succeeds d s :
  (d ∈ paths s → rmtree_error d (paths s) = None) →
  (clean d s).2 = Returned tt ∧
  (∀ p, below d p = true → d ∈ paths s → p ∉ paths (clean d s).1) ∧
  d ∉ paths (clean d s).1.
Proof.
  intros Hok. unfold clean_dir, rmtree.
  destruct (decide (d ∈ paths s)) as [Hin|Hout]; [|done].
  rewrite (Hok Hin). cbn [fst snd paths]. split; [done|]. split.
  - intros p Hp _. rewrite elem_of_filter. intros [? _]. congruence.
  - rewrite elem_of_filter, below_refl. by intros [? _].
Qed.

(** [clean_dir] when [rmtree] fails. *)
Lemma clean_dir_fails d s e removed :
  d ∈ paths s → rmtree_error d (paths s) = Some (e, removed) →
  (clean d s).2 = Raised e ∧ d ∈ paths (clean d s).1.
Proof.
  intros Hin Herr. unfold clean_dir, rmtree.
  rewrite decide_True, Herr by done. cbn [fst snd paths].
  split; [done|]. apply elem_of_filter. split; [by left | done].
Qed.

Lemma clean_all_subseteq ds s p :
  p ∈ paths (foldl (λ st d, (clean d st).1) s ds) → p ∈ paths s.
Proof.
  revert s. induction ds as [|d ds IH]; intros s; [done|].
  cbn [foldl]. intros Hp. by apply (clean_dir_subseteq d), IH.
Qed.

Lemma clean_all_removes ds s d :
  (∀ fs, rmtree_error d fs = None) →
  d ∈ ds → d ∉ paths (foldl (λ st d, (clean d st).1) s ds).
Proof.
  intros Hok. revert s. induction ds as [|d0 ds IH]; intros s Hd.
  - by apply elem_of_nil in Hd.
  - cbn [foldl]. apply elem_of_cons in Hd as [->|Hd]; [|by apply IH].
    intros Hin. apply clean_all_subseteq in Hin.
    by apply (clean_dir_succeeds d0 s (λ _, Hok (paths s))).
Qed.
End facts.

(** X21.  When the body returns, line 94 runs.  If [rmtree] succeeds, or
    the body has already removed the directory, the block returns the
    value of the body, and the directory is gone together with all that
    lies below it, whatever the body put there.  If [rmtree] raises, the
    block raises that exception in place of the value and the directory
    is still there.  Either way the paths outside the directory are as the
    body left them. *)
Theorem directory_removed_on_return {E A : Type}
    (mkdtemp : string → string → option string → gset string → E + string)
    (rmtree_error : string → gset string → option (E * gset string))
    suffix prefix directory (body : string → os → os * outcome E A)
    s d s2 (a : A) :
  mkdtemp suffix prefix directory (paths s) = inr d →
  body d {| paths := {[d]} ∪ paths s; at_exit := at_exit s ++ [d] |}
    = (s2, Returned a) →
  let r := make_temp_directory mkdtemp rmtree_error
             suffix prefix directory body s in
  ((d ∈ paths s2 → rmtree_error d (paths s2) = None) →
     r.2 = Returned a ∧ (d ∉ paths r.1) ∧
     (d ∈ paths s2 → ∀ p, below d p = true → p ∉ paths r.1)) ∧
  (∀ e removed,
     d ∈ paths s2 → rmtree_error d (paths s2) = Some (e, removed) →
     r.2 = Raised e ∧ d ∈ paths r.1) ∧
  (∀ p, below d p = false → (p ∈ paths r.1 ↔ p ∈ paths s2)).
Proof.
  intros Hmk Hbody. cbv zeta. unfold make_temp_directory.
  rewrite Hmk, Hbody.
  assert (Hfst : ∀ x : os * outcome E unit,
    (match x with
     | (s3, Returned _) => (s3, Returned a)
     | (s3, Raised e) => (s3, @Raised E A e)
     end).1 = x.1) by (by intros [s3 [u|e]]).
  rewrite !Hfst. split; [|split].
  - intros Hok.
    destruct (clean_dir_succeeds rmtree_error d s2 Hok) as (Hres & Hall & Hd).
    split; [|split; [done|]].
    + destruct (clean_dir rmtree_error d s2) as [s3 [u|e]]; [done|].
      discriminate Hres.
    + intros Hin p Hp. by apply Hall.
  - intros e removed Hin Herr.
    destruct (clean_dir_fails rmtree_error d s2 e removed Hin Herr)
      as [Hres Hd].
    split; [|done].
    destruct (clean_dir rmtree_error d s2) as [s3 [u|e']];
      cbn [snd] in *; congruence.
  - intros p Hp. by apply clean_dir_outside.
Qed.

Lemma directory_removed_on_return_witness :
  ("/tmp/tmpabc123"%string
     ∉ paths (make_temp_directory mkdtemp_abc rmtree_succeeds "" "tmp" None
                writes_a_file s0).1) ∧
  (make_temp_directory mkdtemp_abc rmtree_refused "" "tmp" None
     writes_a_file s0).2 = Raised "OSError"%string.
Proof.
  split.
  - refine (proj1 (proj2 (proj1 (directory_removed_on_return mkdtemp_abc
              rmtree_succeeds "" "tmp" None writes_a_file s0
              "/tmp/tmpabc123" _ tt eq_refl eq_refl) _))).
    reflexivity.
  - refine (proj1 (proj1 (proj2 (directory_removed_on_return mkdtemp_abc
              rmtree_refused "" "tmp" None writes_a_file s0
              "/tmp/tmpabc123" _ tt eq_refl eq_refl))
              "OSError"%string ∅ _ eq_refl)).
    cbn [writes_a_file paths s0].
    apply elem_of_union_r, elem_of_union_l, elem_of_singleton_2. reflexivity.
Defined.

(** X22.  When the body raises, the block raises the same exception and
    line 94 is not run: the world is as the body left it, so a directory
    the body left in place is still there when the block is left.  If its
    handler is still registered and [rmtree] does not fail on it, the
    directory is gone once the exit handlers have run. *)
Theorem directory_survives_an_exception {E A : Type}
    (mkdtemp : string → string → option string → gset string → E + string)
    (rmtree_error : string → gset string → option (E * gset string))
    suffix prefix directory (body : string → os → os * outcome E A)
    s d s2 (e : E) :
  mkdtemp suffix prefix directory (paths s) = inr d →
  body d {| paths := {[d]} ∪ paths s; at_exit := at_exit s ++ [d] |}
    = (s2, Raised e) →
  let r := make_temp_directory mkdtemp rmtree_error
             suffix prefix directory body s in
  r = (s2, Raised e) ∧
  (d ∈ at_exit s2 → (∀ fs, rmtree_error d fs = None) →
   d ∉ paths (run_exit_handlers rmtree_error r.1)).
Proof.
  intros Hmk Hbody. cbv zeta. unfold make_temp_directory.
  rewrite Hmk, Hbody. split; [done|]. cbn [fst]. intros Hreg Hok.
  unfold run_exit_handlers. cbn [paths].
  apply clean_all_removes; [done | by apply elem_of_reverse].
Qed.

Lemma directory_survives_an_exception_witness :
  "/tmp/tmpabc123"%string
    ∈ paths (make_temp_directory mkdtemp_abc rmtree_succeeds "" "tmp" None
               writes_and_fails s0).1.
Proof.
  rewrite (proj1 (directory_survives_an_exception mkdtemp_abc
                    rmtree_succeeds "" "tmp" None
                    writes_and_fails s0 "/tmp/tmpabc123" _ "IOError"
                    eq_refl eq_refl)).
  cbn [fst paths s0 at_exit].
  apply elem_of_union_r, elem_of_union_l, elem_of_singleton_2. reflexivity.
Defined.

(** X23.  The exit handlers create no path, and after they have run no
    directory exists that is registered and on which [rmtree] does not
    fail, whatever happens to the handlers of the other directories. *)
Theorem exit_handlers_remove_every_directory {E : Type}
    (rmtree_error : string → gset string → option (E * gset string))
    (s : os) :
  (∀ p, p ∈ paths (run_exit_handlers rmtree_error s) → p ∈ paths s) ∧
  (∀ d, d ∈ at_exit s → (∀ fs, rmtree_error d fs = None) →
        d ∉ paths (run_exit_handlers rmtree_error s)).
Proof.
  unfold run_exit_handlers. cbn [paths]. split.
  - intros p. apply clean_all_subseteq.
  - intros d Hd Hok. apply clean_all_removes; [done|].
    by apply elem_of_reverse.
Qed.

Lemma exit_handlers_remove_every_directory_witness :
  "/tmp/tmpabc123"%string
    ∉ paths (run_exit_handlers rmtree_succeeds
               (make_temp_directory mkdtemp_abc rmtree_succeeds "" "tmp" None
                  writes_and_fails s0).1).
Proof.
  apply (proj2 (exit_handlers_remove_every_directory rmtree_succeeds _));
    [|done].
  apply list_elem_of_In. simpl. by left.
Defined.
End TempDirSpec.
